(** * StreamKit: the EventSub subscription manager and the chat command
      dispatcher

    A shallow embedding of [src/eventSubManager.ts] (class
    [EventSubManager]), [src/chatBot.ts] (class [ChatBot]) and
    [src/twitchClient.ts] (class [TwitchClient]), with the JavaScript
    built-ins they rely on ([JSON.stringify], [JSON.parse],
    [String.prototype.split], ...) written out as Rocq functions.

    Conventions.
    - The texts that the manager handles come from a file and from the
      Remote Event API and can hold any character. There a JavaScript
      string is a [text]: the list of its UTF-16 code units.
    - The strings of the chat dispatcher, of the environment and of the
      HTTP client are [string]s: sequences of code units below 256.
      [wide] reads such a string as a [text].
    - Numbers that the program computes with are millisecond time stamps and
      durations; they are integers and modelled in [Z].
    - A plain JavaScript object is the list of its own properties in
      enumeration order ([obj]); [obj_set] is property assignment.
    - The JavaScript [Map]s of the chat bot are [gmap]s. *)

From Stdlib Require Import ZArith String Ascii List Lia Bool.
From stdpp Require Import base gmap strings list.

Local Open Scope string_scope.
Local Open Scope Z_scope.

#[local] Arguments String.append !s1 s2 : simpl nomatch.

(** ** JavaScript strings *)

Module JsString.

(** [s.startsWith(c)] for a one-character [c]. *)
Definition startsWith (c : ascii) (s : string) : bool :=
  match s with
  | String a _ => Ascii.eqb a c
  | EmptyString => false
  end.

(** [s.slice(1)]. *)
Definition slice1 (s : string) : string :=
  match s with
  | String _ r => r
  | EmptyString => EmptyString
  end.

(** [s.split(sep)] for a one-character separator: every occurrence of
    [sep] ends a piece, so the result is never empty: the empty string
    splits into one empty piece. *)
Fixpoint split (sep : ascii) (s : string) : list string :=
  match s with
  | EmptyString => [EmptyString]
  | String a r =>
      if Ascii.eqb a sep then EmptyString :: split sep r
      else match split sep r with
           | p :: ps => String a p :: ps
           | [] => [String a EmptyString]
           end
  end.

(** [pieces.join(sep)]. *)
Fixpoint join (sep : string) (pieces : list string) : string :=
  match pieces with
  | [] => EmptyString
  | [p] => p
  | p :: ps => p ++ sep ++ join sep ps
  end.

(** One code unit of [toLowerCase()]: A-Z and the upper-case letters of
    the Latin-1 block, U+00C0 to U+00DE without the multiplication sign
    U+00D7, move up by 32. *)
Definition lower_unit (a : ascii) : ascii :=
  let n := N_of_ascii a in
  if ((65 <=? n) && (n <=? 90))%N then ascii_of_N (n + 32)
  else if ((192 <=? n) && (n <=? 222) && negb (n =? 215))%N
       then ascii_of_N (n + 32)
  else a.

Fixpoint toLowerCase (s : string) : string :=
  match s with
  | EmptyString => EmptyString
  | String a r => String (lower_unit a) (toLowerCase r)
  end.

(** The string conversion of a template literal, for a value that is a
    string or [undefined]. *)
Definition interpolate (v : option string) : string :=
  match v with
  | Some s => s
  | None => "undefined"
  end.

(** *** Strings of any code units *)

(** A JavaScript string as the list of its UTF-16 code units; a code
    unit is a number below 65536. *)
Abbreviation text := (list N).

(** The code unit of a character below 256. *)
Definition code (a : ascii) : N := N_of_ascii a.

(** A string of code units below 256 as a text. *)
Fixpoint wide (s : string) : text :=
  match s with
  | EmptyString => []
  | String a r => code a :: wide r
  end.

(** [a === b]. *)
Fixpoint text_eqb (a b : text) : bool :=
  match a, b with
  | [], [] => true
  | x :: a', y :: b' => (x =? y)%N && text_eqb a' b'
  | _, _ => false
  end.

(** [pieces.join(sep)]. *)
Fixpoint join_texts (sep : text) (pieces : list text) : text :=
  match pieces with
  | [] => []
  | [p] => p
  | p :: ps => (p ++ sep ++ join_texts sep ps)%list
  end.

(** The text as a string, when all its code units are below 256. *)
Fixpoint narrow (t : text) : option string :=
  match t with
  | [] => Some EmptyString
  | a :: r =>
      if (a <? 256)%N then
        match narrow r with
        | Some s => Some (String (ascii_of_N a) s)
        | None => None
        end
      else None
  end.

(** The number of occurrences of a code unit. *)
Fixpoint count_code (c : N) (t : text) : nat :=
  match t with
  | [] => O
  | a :: r => if (a =? c)%N then S (count_code c r) else count_code c r
  end.

End JsString.

(** ** JSON values and JavaScript objects *)

Module Json.
Import JsString.
#[local] Open Scope list_scope.

(** A parsed JSON document. A number keeps the text it was written with:
    the program never computes with one. ([JSON.stringify] writes a number
    in its shortest form; the store holds no numbers, and the facts about
    texts that are written and read again are about documents of strings
    and objects.) *)
#[local] Unset Elimination Schemes.
Inductive json : Type :=
| JNull
| JBool (b : bool)
| JNum (lexeme : text)
| JStr (s : text)
| JArr (elems : list json)
| JObj (props : list (text * json)).
#[local] Set Elimination Schemes.

(** The own properties of an object, in enumeration order. *)
Definition obj : Type := list (text * json).

(** *** Property names that are array indices

    JavaScript enumerates the property names that are canonical array
    indices (["0"], ["1"], ... up to 2^32 - 2, no leading zero) first and
    in numeric order, and all other names after them in the order of
    their creation. *)

Definition digit_of (a : N) : option N :=
  if ((48 <=? a) && (a <=? 57))%N then Some (a - 48)%N else None.

Fixpoint digits_value (acc : N) (s : text) : option N :=
  match s with
  | [] => Some acc
  | a :: r =>
      match digit_of a with
      | Some d => digits_value (10 * acc + d)%N r
      | None => None
      end
  end.

Definition array_index (k : text) : option N :=
  match k with
  | [] => None
  | a :: r =>
      if (a =? code "0")%N then
        match r with
        | [] => Some 0%N
        | _ :: _ => None
        end
      else if (10 <? length k)%nat then None
      else match digits_value 0 k with
           | Some n => if (n <=? 4294967294)%N then Some n else None
           | None => None
           end
  end.

(** [may_precede k1 k2]: a property named [k1] can be enumerated before
    one named [k2]. *)
Definition may_precede (k1 k2 : text) : bool :=
  match array_index k1, array_index k2 with
  | Some a, Some b => (a <? b)%N
  | Some _, None => true
  | None, Some _ => false
  | None, None => true
  end.

(** [o[k]] for an own property. *)
Fixpoint obj_get (o : obj) (k : text) : option json :=
  match o with
  | [] => None
  | (k', v) :: r => if text_eqb k' k then Some v else obj_get r k
  end.

Definition has_key (o : obj) (k : text) : bool :=
  match obj_get o k with Some _ => true | None => false end.

Fixpoint replace_value (o : obj) (k : text) (v : json) : obj :=
  match o with
  | [] => []
  | (k', v') :: r =>
      if text_eqb k' k then (k', v) :: r
      else (k', v') :: replace_value r k v
  end.

(** The place of a new property: behind every property that may precede
    it. *)
Fixpoint insert_new (o : obj) (k : text) (v : json) : obj :=
  match o with
  | [] => [(k, v)]
  | (k', v') :: r =>
      if may_precede k' k then (k', v') :: insert_new r k v
      else (k, v) :: (k', v') :: r
  end.

(** [o[k] = v]: an existing property keeps its place, a new one is
    created. *)
Definition obj_set (o : obj) (k : text) (v : json) : obj :=
  if has_key o k then replace_value o k v else insert_new o k v.

(** The object that results from creating the given properties one after
    the other, as an object literal and [JSON.parse] do. *)
Definition obj_of_entries (l : list (text * json)) : obj :=
  fold_left (fun acc p => obj_set acc (fst p) (snd p)) l [].

(** A [Record<string, string>], given by its properties in enumeration
    order. *)
Definition strings_obj (c : list (text * text)) : obj :=
  map (fun p => (fst p, JStr (snd p))) c.




(** *** JSON.stringify *)

Definition hex_digit (n : N) : N :=
  if (n <? 10)%N then (48 + n)%N else (87 + n)%N.

(** The double quote, U+0022. *)
Definition dquote : N := 34%N.

(** The two halves of a surrogate pair. *)
Definition is_high (a : N) : bool := ((55296 <=? a) && (a <=? 56319))%N.
Definition is_low (a : N) : bool := ((56320 <=? a) && (a <=? 57343))%N.

(** UnicodeEscape: a backslash, [u] and four hexadecimal digits in lower
    case. *)
Definition unicode_text (n : N) : text :=
  let q1 := (n / 16)%N in
  let q2 := (q1 / 16)%N in
  let q3 := (q2 / 16)%N in
  wide "\u" ++ [hex_digit q3; hex_digit (q2 mod 16); hex_digit (q1 mod 16);
                hex_digit (n mod 16)].

(** QuoteJSONString, one code unit that is not part of a surrogate
    pair. *)
Definition quote_unit (a : N) : text :=
  if (a =? 8)%N then wide "\b"
  else if (a =? 9)%N then wide "\t"
  else if (a =? 10)%N then wide "\n"
  else if (a =? 12)%N then wide "\f"
  else if (a =? 13)%N then wide "\r"
  else if (a =? 34)%N then [code "\"; dquote]
  else if (a =? 92)%N then wide "\\"
  else if (a <? 32)%N || is_high a || is_low a then unicode_text a
  else [a].

(** QuoteJSONString without the quotes: a surrogate pair is written as
    it is, every other code unit by [quote_unit]. *)
Fixpoint quote_body (s : text) : text :=
  match s with
  | [] => []
  | a :: r =>
      match r with
      | b :: r' =>
          if is_high a && is_low b then a :: b :: quote_body r'
          else quote_unit a ++ quote_body r
      | [] => quote_unit a
      end
  end.

Definition quote (s : text) : text :=
  dquote :: quote_body s ++ [dquote].

Fixpoint spaces (n : nat) : text :=
  match n with
  | O => []
  | S m => code " " :: spaces m
  end.

Definition newline : text := [10%N].

(** The layout of SerializeJSONObject and SerializeJSONArray: [gap] is
    the number of spaces of one indentation step (0 without a [space]
    argument) and [ind] is the indentation of the enclosing value. *)
Definition wrap (opening closing : text) (gap ind : nat) (items : list text) : text :=
  match items with
  | [] => opening ++ closing
  | _ =>
      match gap with
      | O => opening ++ join_texts (wide ",") items ++ closing
      | _ =>
          opening ++ newline ++ spaces (ind + gap)
          ++ join_texts (wide "," ++ newline ++ spaces (ind + gap)) items
          ++ newline ++ spaces ind ++ closing
      end
  end.

Definition colon (gap : nat) : text :=
  match gap with O => wide ":" | _ => wide ": " end.

Fixpoint serialize (gap ind : nat) (v : json) : text :=
  match v with
  | JNull => wide "null"
  | JBool true => wide "true"
  | JBool false => wide "false"
  | JNum lexeme => lexeme
  | JStr s => quote s
  | JArr elems =>
      wrap (wide "[") (wide "]") gap ind (map (serialize gap (ind + gap)) elems)
  | JObj props =>
      wrap (wide "{") (wide "}") gap ind
        (map (fun p => quote (fst p) ++ colon gap ++ serialize gap (ind + gap) (snd p)) props)
  end.

(** [JSON.stringify(v)] and [JSON.stringify(v, null, 2)]. *)
Definition stringify (v : json) : text := serialize 0 0 v.
Definition stringify2 (v : json) : text := serialize 2 0 v.

(** *** JSON.parse *)

Definition is_ws (a : N) : bool :=
  ((a =? 32) || (a =? 9) || (a =? 10) || (a =? 13))%N.

Fixpoint skip_ws (s : text) : text :=
  match s with
  | a :: r => if is_ws a then skip_ws r else s
  | [] => []
  end.

Definition hex_value (a : N) : option N :=
  if ((48 <=? a) && (a <=? 57))%N then Some (a - 48)%N
  else if ((97 <=? a) && (a <=? 102))%N then Some (a - 87)%N
  else if ((65 <=? a) && (a <=? 70))%N then Some (a - 55)%N
  else None.

(** The code unit written with a backslash, [u] and four hexadecimal
    digits; [None] for a malformed escape. *)
Definition unicode_escape (h1 h2 h3 h4 : N) : option N :=
  match hex_value h1, hex_value h2, hex_value h3, hex_value h4 with
  | Some a, Some b, Some c, Some d => Some (((a * 16 + b) * 16 + c) * 16 + d)%N
  | _, _, _, _ => None
  end.

(** The character that a one-letter escape stands for. *)
Definition simple_escape (e : N) : option N :=
  if (e =? 34)%N then Some dquote
  else if (e =? 92)%N then Some (code "\")
  else if (e =? 47)%N then Some (code "/")
  else if (e =? 98)%N then Some 8%N
  else if (e =? 102)%N then Some 12%N
  else if (e =? 110)%N then Some 10%N
  else if (e =? 114)%N then Some 13%N
  else if (e =? 116)%N then Some 9%N
  else None.

Definition prepend (a : N) (res : option (text * text)) : option (text * text) :=
  match res with
  | Some (t, rest) => Some (a :: t, rest)
  | None => None
  end.

(** The characters of a string literal after its opening quote, and the
    text behind the closing quote. *)
Fixpoint parse_chars (s : text) : option (text * text) :=
  match s with
  | [] => None
  | a :: r =>
      if (a =? dquote)%N then Some ([], r)
      else if (a =? code "\")%N then
        match r with
        | e :: r1 =>
            if (e =? code "u")%N then
              match r1 with
              | h1 :: h2 :: h3 :: h4 :: r2 =>
                  match unicode_escape h1 h2 h3 h4 with
                  | Some c => prepend c (parse_chars r2)
                  | None => None
                  end
              | _ => None
              end
            else
              match simple_escape e with
              | Some c => prepend c (parse_chars r1)
              | None => None
              end
        | [] => None
        end
      else if (a <? 32)%N then None
      else prepend a (parse_chars r)
  end.

Definition is_digit (a : N) : bool :=
  match digit_of a with Some _ => true | None => false end.

Fixpoint take_digits (s : text) : text * text :=
  match s with
  | a :: r =>
      if is_digit a
      then let (d, rest) := take_digits r in (a :: d, rest)
      else ([], s)
  | [] => ([], [])
  end.

Definition some_digits (s : text) : option (text * text) :=
  match take_digits s with
  | ([], _) => None
  | (d, rest) => Some (d, rest)
  end.

(** The lexeme of a number: an optional minus sign; then a single zero,
    or a non-zero digit and any digits; then optionally a dot and at
    least one digit; then optionally e or E, an optional sign and at
    least one digit. *)
Definition parse_int (s : text) : option (text * text) :=
  match s with
  | a :: r =>
      if (a =? code "0")%N then Some (wide "0", r)
      else if is_digit a then let (d, rest) := take_digits r in Some (a :: d, rest)
      else None
  | [] => None
  end.

Definition parse_frac (s : text) : option (text * text) :=
  match s with
  | a :: r =>
      if (a =? code ".")%N then prepend a (some_digits r) else Some ([], s)
  | [] => Some ([], s)
  end.

Definition parse_exp (s : text) : option (text * text) :=
  match s with
  | a :: r =>
      if (a =? code "e")%N || (a =? code "E")%N then
        match r with
        | sg :: r1 =>
            if (sg =? code "+")%N || (sg =? code "-")%N
            then prepend a (prepend sg (some_digits r1))
            else prepend a (some_digits r)
        | [] => None
        end
      else Some ([], s)
  | [] => Some ([], s)
  end.

Definition parse_unsigned (s : text) : option (text * text) :=
  match parse_int s with
  | Some (i, r1) =>
      match parse_frac r1 with
      | Some (f, r2) =>
          match parse_exp r2 with
          | Some (e, r3) => Some (i ++ f ++ e, r3)
          | None => None
          end
      | None => None
      end
  | None => None
  end.

Definition parse_number (s : text) : option (text * text) :=
  match s with
  | a :: r => if (a =? code "-")%N then prepend a (parse_unsigned r) else parse_unsigned s
  | [] => None
  end.

(** [expect w s]: [s] without its prefix [w]. *)
Fixpoint expect (w s : text) : option text :=
  match w, s with
  | [], _ => Some s
  | a :: w', b :: s' => if (a =? b)%N then expect w' s' else None
  | _ :: _, [] => None
  end.

Definition literal (w : text) (v : json) (s : text) : option (json * text) :=
  match expect w s with
  | Some rest => Some (v, rest)
  | None => None
  end.

(** A recursive-descent parser. Every call consumes a character before
    it calls again, so a budget of the length of the text is never
    used up. An object is built property by property: a repeated name
    keeps its place and takes the last value. *)
Fixpoint parse_value (fuel : nat) (s : text) : option (json * text) :=
  match fuel with
  | O => None
  | S f =>
      match skip_ws s with
      | [] => None
      | a :: r =>
          if (a =? code "{")%N then
            match skip_ws r with
            | b :: r' =>
                if (b =? code "}")%N then Some (JObj [], r')
                else parse_members f [] (b :: r')
            | [] => None
            end
          else if (a =? code "[")%N then
            match skip_ws r with
            | b :: r' =>
                if (b =? code "]")%N then Some (JArr [], r')
                else parse_elements f [] (b :: r')
            | [] => None
            end
          else if (a =? dquote)%N then
            match parse_chars r with
            | Some (t, rest) => Some (JStr t, rest)
            | None => None
            end
          else if (a =? code "t")%N then literal (wide "rue") (JBool true) r
          else if (a =? code "f")%N then literal (wide "alse") (JBool false) r
          else if (a =? code "n")%N then literal (wide "ull") JNull r
          else
            match parse_number (a :: r) with
            | Some (lexeme, rest) => Some (JNum lexeme, rest)
            | None => None
            end
      end
  end
with parse_members (fuel : nat) (acc : obj) (s : text) : option (json * text) :=
  match fuel with
  | O => None
  | S f =>
      match skip_ws s with
      | q :: r =>
          if (q =? dquote)%N then
            match parse_chars r with
            | Some (k, r1) =>
                match skip_ws r1 with
                | c :: r2 =>
                    if (c =? code ":")%N then
                      match parse_value f r2 with
                      | Some (v, r3) =>
                          match skip_ws r3 with
                          | d :: r4 =>
                              if (d =? code ",")%N then parse_members f (obj_set acc k v) r4
                              else if (d =? code "}")%N then Some (JObj (obj_set acc k v), r4)
                              else None
                          | [] => None
                          end
                      | None => None
                      end
                    else None
                | [] => None
                end
            | None => None
            end
          else None
      | [] => None
      end
  end
with parse_elements (fuel : nat) (acc : list json) (s : text) : option (json * text) :=
  match fuel with
  | O => None
  | S f =>
      match parse_value f s with
      | Some (v, r1) =>
          match skip_ws r1 with
          | d :: r2 =>
              if (d =? code ",")%N then parse_elements f (acc ++ [v]) r2
              else if (d =? code "]")%N then Some (JArr (acc ++ [v]), r2)
              else None
          | [] => None
          end
      | None => None
      end
  end.

(** [JSON.parse(text)]; [None] when it throws a SyntaxError. *)
Definition parse (t : text) : option json :=
  match parse_value (S (length t)) t with
  | Some (v, rest) =>
      match skip_ws rest with
      | [] => Some v
      | _ :: _ => None
      end
  | None => None
  end.

(** *** Documents of the store

    The state file is declared to hold a
    [Record<string, StoredSubscription>]: objects whose leaves are
    strings. *)

Fixpoint string_tree (v : json) : bool :=
  match v with
  | JStr _ => true
  | JObj props => forallb (fun p => string_tree (snd p)) props
  | JNull | JBool _ | JNum _ | JArr _ => false
  end.

(** [normalize v] is [v] with every object built anew from its list of
    properties: what [JSON.parse] makes of the text of [v]. *)
Fixpoint normalize (v : json) : json :=
  match v with
  | JObj props => JObj (obj_of_entries (map (fun p => (fst p, normalize (snd p))) props))
  | JArr elems => JArr (map normalize elems)
  | JNull | JBool _ | JNum _ | JStr _ => v
  end.

(** The names of an object are in enumeration order and without
    repetition. *)
Fixpoint precedes_all (k : text) (o : obj) : bool :=
  match o with
  | [] => true
  | (k', _) :: r => negb (text_eqb k k') && may_precede k k' && precedes_all k r
  end.

Fixpoint well_ordered (o : obj) : bool :=
  match o with
  | [] => true
  | (k, _) :: r => precedes_all k r && well_ordered r
  end.

(** A value all of whose objects are well ordered. *)
Fixpoint canonical (v : json) : bool :=
  match v with
  | JObj props => well_ordered props && forallb (fun p => canonical (snd p)) props
  | JArr elems => forallb canonical elems
  | JNull | JBool _ | JNum _ | JStr _ => true
  end.

(** The number of calls that parsing the text of a value takes at
    most. *)
Fixpoint size (v : json) : nat :=
  match v with
  | JObj props => S (list_sum (map (fun p => S (size (snd p))) props))
  | JArr elems => S (list_sum (map (fun e => S (size e)) elems))
  | JNull | JBool _ | JNum _ | JStr _ => 1
  end.

(** The names of the properties of an object. *)
Definition keys (o : obj) : list text := map fst o.

(** The text of one property, and the text of the properties of an
    object up to its closing brace. *)
Definition item (gap ind : nat) (p : text * json) : text :=
  quote (fst p) ++ colon gap ++ serialize gap ind (snd p).

Definition normal_entry (p : text * json) : text * json :=
  (fst p, normalize (snd p)).

(** The white space that [wrap] puts in front of an item. *)
Definition pad (gap k : nat) : text :=
  match gap with
  | O => []
  | S _ => newline ++ spaces k
  end.

Fixpoint members_text (gap ind : nat) (props : list (text * json)) (T : text) : text :=
  match props with
  | [] => T
  | [p] => item gap (ind + gap) p ++ pad gap ind ++ T
  | p :: ps =>
      item gap (ind + gap) p ++ wide "," ++ pad gap (ind + gap) ++ members_text gap ind ps T
  end.

(** [roundtrips v]: the parser reads the text of [v], in any layout and
    in front of any other text, with a budget of [size v]. *)
Definition roundtrips (v : json) : Prop :=
  string_tree v = true ->
  forall gap ind rest fuel s,
    (size v <= fuel)%nat ->
    skip_ws s = serialize gap ind v ++ rest ->
    parse_value fuel s = Some (normalize v, rest).

End Json.

(** ** The EventSub subscription manager ([src/eventSubManager.ts]) *)

Module EventSub.
Import JsString Json.
#[local] Open Scope list_scope.

(** What a rejected promise or a [throw] carries. *)
Inductive error : Type :=
| TypeError
| SyntaxError
| IoError
| RemoteError (reason : string).

Inductive outcome (A : Type) : Type :=
| Ok (a : A)
| Err (e : error).
Arguments Ok {A} a.
Arguments Err {A} e.

(** The arguments of [createEventSubSubscription]. *)
Record Request : Type := {
  req_type : text;
  req_condition : list (text * text);
  req_callback : text;
  req_secret : text
}.

(** One subscription descriptor of the response, as far as the manager
    reads it. *)
Record Descriptor : Type := {
  id : text;
  expires_at : text
}.

(** The Remote Event API either fails or answers with [resp.data]. *)
Inductive ApiResult : Type :=
| ApiFail (reason : string)
| ApiOk (data : list Descriptor).

(** The state file: there is none, it cannot be read, or it holds a
    text. *)
Inductive medium : Type :=
| Missing
| Unreadable
| Contents (t : text).

(** A renewal armed with [setTimeout]; [None] is a delay of [NaN]. *)
Record Timer : Type := {
  delay : option Z;
  t_type : text;
  t_condition : list (text * text);
  t_callback : text;
  t_secret : text
}.

(** Everything outside the manager that it reads or changes: the file
    system, the clock, the Remote Event API, the timers and the log.
    [clock n] is what [Date.now()] returns when the manager calls it
    for the n-th time and [api n req] is the answer to the n-th
    creation request.
    [writable] tells whether a write of the state file succeeds, and
    [torn] how it fails when it does not: [None] when the file cannot
    be opened for writing, [Some rest] when the write fails after the
    file was opened, which empties it, and [rest] is what the file
    holds then: whatever was written of the text. [writes] are the
    texts that were written in full, and [log] the lines that the
    manager itself logs (the client logs a line of its own when its
    request is answered). *)
Record World : Type := {
  file : medium;
  writable : bool;
  torn : option text;
  clock : nat -> Z;
  ticks : nat;
  api : nat -> Request -> ApiResult;
  requests : list Request;
  writes : list text;
  timers : list Timer;
  log : list string
}.

(** *** Effects *)

Definition M (A : Type) : Type := World -> outcome A * World.

Definition ret {A} (a : A) : M A := fun w => (Ok a, w).

Definition throw {A} (e : error) : M A := fun w => (Err e, w).

Definition bind {A B} (m : M A) (k : A -> M B) : M B :=
  fun w =>
    match m w with
    | (Ok a, w') => k a w'
    | (Err e, w') => (Err e, w')
    end.

Definition try_catch {A} (m : M A) (handler : error -> M A) : M A :=
  fun w =>
    match m w with
    | (Ok a, w') => (Ok a, w')
    | (Err e, w') => handler e w'
    end.

Notation "'let*' x ':=' m 'in' k" := (bind m (fun x => k))
  (at level 10, x name, m at level 100, k at level 200).
Notation "m ';;' k" := (bind m (fun _ => k))
  (at level 100, k at level 200, right associativity).

(** [Date.now()]. *)
Definition Date_now : M Z :=
  fun w =>
    (Ok (clock w (ticks w)),
     {| file := file w; writable := writable w; torn := torn w;
        clock := clock w;
        ticks := S (ticks w); api := api w; requests := requests w;
        writes := writes w; timers := timers w; log := log w |}).

(** [fs.readFile(stateFile, 'utf-8')]. *)
Definition readFile : M text :=
  fun w =>
    match file w with
    | Contents t => (Ok t, w)
    | Missing | Unreadable => (Err IoError, w)
    end.

(** [fs.writeFile(stateFile, text)]: the file is opened for writing,
    which empties it, and the text is written; there is no temporary
    file and no renaming. A write that succeeds replaces the content
    of the file. A write that fails leaves the file as it was when the
    file could not be opened, and with what was written of the text
    when it failed later. *)
Definition writeFile (t : text) : M unit :=
  fun w =>
    if writable w then
      (Ok tt,
       {| file := Contents t; writable := writable w; torn := torn w;
          clock := clock w;
          ticks := ticks w; api := api w; requests := requests w;
          writes := writes w ++ [t]; timers := timers w; log := log w |})
    else
      match torn w with
      | None => (Err IoError, w)
      | Some rest =>
          (Err IoError,
           {| file := Contents rest; writable := writable w; torn := torn w;
              clock := clock w;
              ticks := ticks w; api := api w; requests := requests w;
              writes := writes w; timers := timers w; log := log w |})
      end.

(** [client.createEventSubSubscription(type, condition, callback,
    secret)], giving [resp.data]. *)
Definition createEventSubSubscription (req : Request) : M (list Descriptor) :=
  fun w =>
    let w' :=
      {| file := file w; writable := writable w; torn := torn w;
         clock := clock w;
         ticks := ticks w; api := api w; requests := requests w ++ [req];
         writes := writes w; timers := timers w; log := log w |} in
    match api w (length (requests w)) req with
    | ApiFail reason => (Err (RemoteError reason), w')
    | ApiOk data => (Ok data, w')
    end.

(** [setTimeout(..., d).unref()]. *)
Definition setTimeout (t : Timer) : M unit :=
  fun w =>
    (Ok tt,
     {| file := file w; writable := writable w; torn := torn w;
        clock := clock w;
        ticks := ticks w; api := api w; requests := requests w;
        writes := writes w; timers := timers w ++ [t]; log := log w |}).

(** [logger.info] and [logger.error]. *)
Definition log_line (msg : string) : M unit :=
  fun w =>
    (Ok tt,
     {| file := file w; writable := writable w; torn := torn w;
        clock := clock w;
        ticks := ticks w; api := api w; requests := requests w;
        writes := writes w; timers := timers w; log := log w ++ [msg] |}).

(** *** The manager *)

Section Manager.

(** [new Date(v).getTime()] for a value [v] ([None] is [undefined]);
    the result [None] is [NaN]. What [Date] accepts beyond the ISO
    format is left to the implementation, so the function is a
    parameter of the development. *)
Variable Date_getTime : option json -> option Z.

(** [makeKey]. *)
Definition makeKey (type : text) (condition : list (text * text)) : text :=
  type ++ wide ":" ++ stringify (JObj (strings_obj condition)).

(** What [loadState] makes of the state file: its parsed content, or
    the empty object when the file cannot be read or parsed. *)
Definition stored (m : medium) : json :=
  match m with
  | Contents t =>
      match parse t with
      | Some v => v
      | None => JObj []
      end
  | Missing | Unreadable => JObj []
  end.

(** [loadState]. *)
Definition loadState : M json :=
  try_catch
    (let* raw := readFile in
     match parse raw with
     | Some v => ret v
     | None => throw SyntaxError
     end)
    (fun _ => ret (JObj [])).

(** [saveState]. *)
Definition saveState (state : json) : M unit :=
  writeFile (stringify2 state).

(** [state[key]], for a [key] that holds a colon: reading a property
    of [null] throws, an object answers with its own property, and
    neither the other values nor any prototype has a property of
    such a name. *)
Definition get_member (state : json) (key : text) : M (option json) :=
  match state with
  | JNull => throw TypeError
  | JObj o => ret (obj_get o key)
  | JBool _ | JNum _ | JStr _ | JArr _ => ret None
  end.

(** [state[key] = record] in strict mode: a primitive value refuses
    the assignment, and a property of an array that is not an index
    is not part of what [JSON.stringify] writes. *)
Definition set_member (state : json) (key : text) (record : json) : M json :=
  match state with
  | JObj o => ret (JObj (obj_set o key record))
  | JArr elems => ret (JArr elems)
  | JNull | JBool _ | JNum _ | JStr _ => throw TypeError
  end.

(** [v.expires_at] for a value [v] that is not [null]. *)
Definition expires_at_of (v : json) : option json :=
  match v with
  | JObj e => obj_get e (wide "expires_at")
  | _ => None
  end.

(** [existing && new Date(existing.expires_at).getTime() - now >
    60 * 1000]. Only an object can pass: [undefined], [null] and the
    other falsy values stop at [existing], and a truthy value that is
    not an object has no [expires_at], which leaves [NaN] on the left
    of the comparison. *)
Definition is_fresh (existing : option json) (now : Z) : bool :=
  match existing with
  | Some (JObj e) =>
      match Date_getTime (obj_get e (wide "expires_at")) with
      | Some t => 60 * 1000 <? t - now
      | None => false
      end
  | _ => false
  end.

(** [scheduleRenewal]. *)
Definition scheduleRenewal (expires : option json)
    (type : text) (condition : list (text * text))
    (callback secret : text) : M unit :=
  let* now := Date_now in
  let d :=
    match Date_getTime expires with
    | Some t => Some (Z.max (t - now - 60 * 1000) 0)
    | None => None
    end in
  setTimeout {| delay := d; t_type := type; t_condition := condition;
                t_callback := callback; t_secret := secret |}.

(** The record [{ id: sub.id, type, condition, expires_at:
    sub.expires_at }]. *)
Definition record_of (sub : Descriptor) (type : text)
    (condition : list (text * text)) : json :=
  JObj [(wide "id", JStr (id sub)); (wide "type", JStr type);
        (wide "condition", JObj (strings_obj condition));
        (wide "expires_at", JStr (expires_at sub))].

(** The request that [ensureSubscription] sends. *)
Definition request_of (type : text) (condition : list (text * text))
    (callback secret : text) : Request :=
  {| req_type := type; req_condition := condition;
     req_callback := callback; req_secret := secret |}.

(** [ensureSubscription]. *)
Definition ensureSubscription (type : text)
    (condition : list (text * text)) (callback secret : text) : M unit :=
  let* state := loadState in
  let key := makeKey type condition in
  let* existing := get_member state key in
  let* now := Date_now in
  if is_fresh existing now then
    scheduleRenewal
      (match existing with Some v => expires_at_of v | None => None end)
      type condition callback secret
  else
    let* data :=
      createEventSubSubscription (request_of type condition callback secret) in
    match data with
    | [] => throw TypeError
    | sub :: _ =>
        let* state' := set_member state key (record_of sub type condition) in
        saveState state';;
        log_line "EventSub subscription ensured";;
        scheduleRenewal (Some (JStr (expires_at sub))) type condition callback secret
    end.

(** A renewal timer fires: the call is repeated, and a failure is
    logged instead of being passed on. *)
Definition fire (t : Timer) : M unit :=
  try_catch
    (ensureSubscription (t_type t) (t_condition t) (t_callback t) (t_secret t))
    (fun _ => log_line "Failed to renew EventSub subscription").

End Manager.

End EventSub.

(** ** The chat command dispatcher ([src/chatBot.ts]) *)

Module Chat.

(** The roles; [moderator] is the role that the source writes ['mod']. *)
Inductive UserRole : Type :=
| broadcaster
| moderator
| vip
| subscriber
| viewer.

Definition UserRole_eqb (a b : UserRole) : bool :=
  match a, b with
  | broadcaster, broadcaster | moderator, moderator | vip, vip
  | subscriber, subscriber | viewer, viewer => true
  | _, _ => false
  end.

(** [roles.includes(role)]. *)
Definition includes (roles : list UserRole) (role : UserRole) : bool :=
  existsb (UserRole_eqb role) roles.

(** The badges of a user; an absent badge is [None]. *)
Record Badges : Type := {
  badge_broadcaster : option string;
  badge_vip : option string;
  badge_subscriber : option string
}.

(** What the dispatcher reads of a [tmi.ChatUserstate]. *)
Record ChatUserstate : Type := {
  user_id : option string;
  username : option string;
  badges : option Badges;
  is_mod : bool
}.

(** The truth value of [user.badges?.b]: the badge is there and is not
    the empty string. *)
Definition has_badge (u : ChatUserstate) (b : Badges -> option string) : bool :=
  match badges u with
  | Some bs =>
      match b bs with
      | Some EmptyString => false
      | Some (String _ _) => true
      | None => false
      end
  | None => false
  end.

(** [getRole]. *)
Definition getRole (user : ChatUserstate) : UserRole :=
  if has_badge user badge_broadcaster then broadcaster
  else if is_mod user then moderator
  else if has_badge user badge_vip then vip
  else if has_badge user badge_subscriber then subscriber
  else viewer.

Record CommandOptions : Type := {
  cooldownMs : option Z;
  roles : option (list UserRole)
}.

(** One call of a handler: [(channel, userstate, args)]. *)
Record Call : Type := {
  call_channel : string;
  call_user : ChatUserstate;
  call_args : string
}.

Section Dispatcher.

(** Whatever the handlers act on. *)
Variable Eff : Type.

(** A handler is called for its effect. *)
Definition CommandHandler : Type := string -> ChatUserstate -> string -> Eff -> Eff.

Record Entry : Type := {
  handler : CommandHandler;
  options : CommandOptions
}.

(** The bot with what it touches: its two maps, the counter
    [chat_messages_processed], the debug log, the state that the
    handlers act on and, as a record of the run, the calls of handlers
    made so far. *)
Record Bot : Type := {
  commands : gmap string Entry;
  lastRun : gmap string Z;
  chatMessageCounter : nat;
  debug_log : list string;
  eff : Eff;
  calls : list Call
}.

(** [registerCommand]. *)
Definition registerCommand (command : string) (h : CommandHandler)
    (opts : CommandOptions) (b : Bot) : Bot :=
  {| commands := <[JsString.toLowerCase command := {| handler := h; options := opts |}]> (commands b);
     lastRun := lastRun b; chatMessageCounter := chatMessageCounter b;
     debug_log := debug_log b; eff := eff b; calls := calls b |}.

Definition count_message (b : Bot) : Bot :=
  {| commands := commands b; lastRun := lastRun b;
     chatMessageCounter := S (chatMessageCounter b);
     debug_log := debug_log b; eff := eff b; calls := calls b |}.

Definition debug (msg : string) (b : Bot) : Bot :=
  {| commands := commands b; lastRun := lastRun b;
     chatMessageCounter := chatMessageCounter b;
     debug_log := debug_log b ++ [msg]; eff := eff b; calls := calls b |}.

Definition set_lastRun (key : string) (now : Z) (b : Bot) : Bot :=
  {| commands := commands b; lastRun := <[key := now]> (lastRun b);
     chatMessageCounter := chatMessageCounter b;
     debug_log := debug_log b; eff := eff b; calls := calls b |}.

Definition invoke (e : Entry) (channel : string) (u : ChatUserstate)
    (args : string) (b : Bot) : Bot :=
  {| commands := commands b; lastRun := lastRun b;
     chatMessageCounter := chatMessageCounter b;
     debug_log := debug_log b;
     eff := handler e channel u args (eff b);
     calls := calls b ++ [{| call_channel := channel; call_user := u; call_args := args |}] |}.

(** The pieces of [message.slice(1).split(' ')]: the first one is
    [cmd], the others are [args]. *)
Definition pieces (message : string) : list string :=
  JsString.split " " (JsString.slice1 message).

Definition cmd_of (message : string) : string :=
  match pieces message with
  | c :: _ => c
  | [] => EmptyString
  end.

Definition args_of (message : string) : list string :=
  match pieces message with
  | _ :: a => a
  | [] => []
  end.

(** The truth value of [entry.options.cooldownMs]. *)
Definition cooldown_of (e : Entry) : option Z :=
  match cooldownMs (options e) with
  | Some 0 => None
  | Some c => Some c
  | None => None
  end.

(** [this.lastRun.get(key) || 0]. *)
Definition last_of (b : Bot) (key : string) : Z :=
  match lastRun b !! key with
  | Some t => t
  | None => 0
  end.

(** [handleMessage]; [now] is what [Date.now()] returns where the
    cooldown is checked. *)
Definition handleMessage (channel : string) (userstate : ChatUserstate)
    (message : string) (self : bool) (now : Z) (b : Bot) : Bot :=
  if self || negb (JsString.startsWith "!" message) then b
  else
    let b := count_message b in
    let cmd := cmd_of message in
    let args := args_of message in
    match commands b !! JsString.toLowerCase cmd with
    | None => b
    | Some entry =>
        let role := getRole userstate in
        if match roles (options entry) with
           | Some rs => negb (includes rs role)
           | None => false
           end
        then debug "Command rejected due to insufficient role" b
        else
          match cooldown_of entry with
          | Some cooldown =>
              let key := JsString.interpolate (user_id userstate) ++ ":" ++ cmd in
              let last := last_of b key in
              if now - last <? cooldown
              then debug "Command throttled" b
              else invoke entry channel userstate (JsString.join " " args)
                     (set_lastRun key now b)
          | None => invoke entry channel userstate (JsString.join " " args) b
          end
    end.

End Dispatcher.

(** The role check and the cooldown check of [handleMessage] as
    propositions, and the key of the cooldown. *)
Definition role_allowed {Eff} (e : Entry Eff) (u : ChatUserstate) : Prop :=
  match roles (options Eff e) with
  | Some rs => includes rs (getRole u) = true
  | None => True
  end.

Definition throttle_key (u : ChatUserstate) (message : string) : string :=
  JsString.interpolate (user_id u) ++ ":" ++ cmd_of message.

Definition cooled_down {Eff} (e : Entry Eff) (u : ChatUserstate)
    (message : string) (now : Z) (b : Bot Eff) : Prop :=
  match cooldown_of Eff e with
  | Some c => c <= now - last_of Eff b (throttle_key u message)
  | None => True
  end.

Arguments commands {Eff} _.
Arguments lastRun {Eff} _.
Arguments chatMessageCounter {Eff} _.
Arguments debug_log {Eff} _.
Arguments eff {Eff} _.
Arguments calls {Eff} _.
Arguments handler {Eff} _.
Arguments options {Eff} _.
Arguments registerCommand {Eff} _ _ _ _.
Arguments handleMessage {Eff} _ _ _ _ _ _.
Arguments cooldown_of {Eff} _.
Arguments last_of {Eff} _ _.

(** A bot that has registered nothing and seen nothing. *)
Definition new_bot {Eff} (e : Eff) : Bot Eff :=
  {| commands := ∅; lastRun := ∅; chatMessageCounter := 0;
     debug_log := []; eff := e; calls := [] |}.

End Chat.

(** ** Reading a message at its first space

    [message.slice(1).split(' ')] cuts at every space; the first piece and
    the others joined again are the text before and after the first
    space. *)

Module Parse.

(** The text before the first space. *)
Fixpoint until_space (s : string) : string :=
  match s with
  | EmptyString => EmptyString
  | String a r => if Ascii.eqb a " " then EmptyString else String a (until_space r)
  end.

(** The text behind the first space, empty when there is none. *)
Fixpoint after_space (s : string) : string :=
  match s with
  | EmptyString => EmptyString
  | String a r => if Ascii.eqb a " " then r else after_space r
  end.

(** The parse in the words of the specification: strip the prefix and
    split on the first whitespace run into the command name and the
    remainder. White space is what a regular expression calls so:
    tab, line feed, vertical tab, form feed, carriage return, space and
    the no-break space. *)
Definition is_whitespace (a : ascii) : bool :=
  let n := N_of_ascii a in
  (((9 <=? n) && (n <=? 13)) || (n =? 32) || (n =? 160))%N.

Fixpoint drop_whitespace (s : string) : string :=
  match s with
  | String a r => if is_whitespace a then drop_whitespace r else s
  | EmptyString => EmptyString
  end.

Fixpoint spec_name (s : string) : string :=
  match s with
  | EmptyString => EmptyString
  | String a r => if is_whitespace a then EmptyString else String a (spec_name r)
  end.

Fixpoint spec_rest (s : string) : string :=
  match s with
  | EmptyString => EmptyString
  | String a r => if is_whitespace a then drop_whitespace r else spec_rest r
  end.

Definition spec_commandName (message : string) : string :=
  JsString.toLowerCase (spec_name (JsString.slice1 message)).

Definition spec_argsRemainder (message : string) : string :=
  spec_rest (JsString.slice1 message).

End Parse.

(** ** Sample users, commands and worlds *)

Module Sample.
Import Chat.

Definition no_badges : Badges :=
  {| badge_broadcaster := None; badge_vip := None; badge_subscriber := None |}.

Definition alice : ChatUserstate :=
  {| user_id := Some "1"; username := Some "alice";
     badges := Some no_badges; is_mod := false |}.

Definition bob : ChatUserstate :=
  {| user_id := Some "2"; username := Some "bob";
     badges := Some no_badges; is_mod := true |}.

(** A handler that appends [tag:channel] to a list of outputs. *)
Definition push (tag : string) : CommandHandler (list string) :=
  fun channel _ _ outputs => (outputs ++ [(tag ++ ":" ++ channel)%string])%list.

(** A handler that appends its argument string. *)
Definition push_args : CommandHandler (list string) :=
  fun _ _ args outputs => (outputs ++ [args])%list.

Definition ping_bot : Bot (list string) :=
  registerCommand "ping" (push "pong")
    {| cooldownMs := Some 1000; roles := None |} (new_bot []).

Definition raid_bot : Bot (list string) :=
  registerCommand "raid" push_args
    {| cooldownMs := None; roles := Some [broadcaster; moderator] |} (new_bot []).

(** *** ISO time stamps

    [Date] reads the format that [toISOString] writes,
    [YYYY-MM-DDTHH:mm:ss.sssZ]; this sample of [new Date(v).getTime()]
    reads that format and nothing else. *)

Definition two_digits (a b : ascii) : option Z :=
  match Json.digit_of (JsString.code a), Json.digit_of (JsString.code b) with
  | Some x, Some y => Some (Z.of_N (10 * x + y))
  | _, _ => None
  end.

Definition days_in_month (y m : Z) : Z :=
  if (m =? 2) then
    (if ((y mod 4 =? 0) && negb (y mod 100 =? 0)) || (y mod 400 =? 0) then 29 else 28)
  else if (m =? 4) || (m =? 6) || (m =? 9) || (m =? 11) then 30
  else 31.

(** The days from 1970-01-01 to the given day of the Gregorian
    calendar. *)
Definition days_from_civil (y m d : Z) : Z :=
  let y' := if m <=? 2 then y - 1 else y in
  let era := y' / 400 in
  let yoe := y' - era * 400 in
  let doy := (153 * (if 2 <? m then m - 3 else m + 9) + 2) / 5 + d - 1 in
  let doe := yoe * 365 + yoe / 4 - yoe / 100 + doy in
  era * 146097 + doe - 719468.

Definition iso_time (s : string) : option Z :=
  match s with
  | String y1 (String y2 (String y3 (String y4 (String "-"
    (String m1 (String m2 (String "-" (String d1 (String d2 (String "T"
    (String h1 (String h2 (String ":" (String n1 (String n2 (String ":"
    (String s1 (String s2 (String "." (String f1 (String f2 (String f3
    (String "Z" EmptyString))))))))))))))))))))))) =>
      match two_digits y1 y2, two_digits y3 y4, two_digits m1 m2,
            two_digits d1 d2, two_digits h1 h2, two_digits n1 n2,
            two_digits s1 s2, two_digits "0" f1, two_digits f2 f3 with
      | Some ya, Some yb, Some m, Some d, Some h, Some n, Some sec, Some fa, Some fb =>
          let y := 100 * ya + yb in
          if (1 <=? m) && (m <=? 12) && (1 <=? d) && (d <=? days_in_month y m)
             && (h <=? 23) && (n <=? 59) && (sec <=? 59)
          then Some ((((days_from_civil y m d * 24 + h) * 60 + n) * 60 + sec) * 1000
                     + 100 * fa + fb)
          else None
      | _, _, _, _, _, _, _, _, _ => None
      end
  | _ => None
  end.

Definition iso_getTime (v : option Json.json) : option Z :=
  match v with
  | Some (Json.JStr s) =>
      match JsString.narrow s with
      | Some t => iso_time t
      | None => None
      end
  | _ => None
  end.

(** *** Worlds *)

Import JsString EventSub.

(** The Remote Event API of the test: every request is answered with
    one descriptor. *)
Definition mock_api (d : Descriptor) : nat -> Request -> ApiResult :=
  fun _ _ => ApiOk [d].

Definition sub1 : Descriptor :=
  {| id := wide "sub1"; expires_at := wide "2023-11-14T23:13:20.000Z" |}.

(** A world at 2023-11-14T22:13:20Z whose clock advances by a
    millisecond with every reading. *)
Definition world (m : medium) (a : nat -> Request -> ApiResult) : World :=
  {| file := m; writable := true; torn := None;
     clock := fun n => Z.of_nat n + 1700000000000; ticks := 0;
     api := a; requests := []; writes := []; timers := []; log := [] |}.

Definition online : list (text * text) := [(wide "broadcaster_user_id", wide "1")].

(** The condition of a follow subscription, with its two properties
    written in either order. *)
Definition follow : list (text * text) :=
  [(wide "broadcaster_user_id", wide "1"); (wide "moderator_user_id", wide "2")].


(** The store after one subscription to [stream.online], and its text. *)
Definition online_store : Json.json :=
  Json.JObj [(makeKey (wide "stream.online") online,
              record_of sub1 (wide "stream.online") online)].

Definition online_text : text := Json.stringify2 online_store.

(** A Remote Event API that is down, and one that answers without a
    descriptor. *)
Definition failing_api : nat -> Request -> ApiResult :=
  fun _ _ => ApiFail "503".

Definition empty_api : nat -> Request -> ApiResult :=
  fun _ _ => ApiOk [].

(** The request of the test, and the state files of the counterexamples:
    a JSON array, [null], and a mapping whose text holds an escape beyond
    U+00FF. *)
Definition online_request : Request :=
  request_of (wide "stream.online") online (wide "cb") (wide "secret").


Definition null_text : text := wide "null".

Definition snowman_text : text :=
  (wide "{" ++ Json.quote (wide "other") ++ wide ":"
   ++ [Json.dquote] ++ wide "\u2603" ++ [Json.dquote] ++ wide "}")%list.

Definition snowman_store : Json.json :=
  Json.JObj [(wide "other", Json.JStr [9731%N])].

(** The call of the test. *)
Definition ensure_online : M unit :=
  ensureSubscription iso_getTime (wide "stream.online") online (wide "cb") (wide "secret").

End Sample.

(** ** The factories ([fromEnv]) *)

Module Config.

(** [s.trim()]: the white space at both ends goes. *)
Fixpoint trim_end (s : string) : string :=
  match s with
  | EmptyString => EmptyString
  | String a r =>
      match trim_end r with
      | EmptyString => if Parse.is_whitespace a then EmptyString else String a EmptyString
      | String b r' => String a (String b r')
      end
  end.

Definition trim (s : string) : string := trim_end (Parse.drop_whitespace s).

(** The last code unit of a text. *)
Fixpoint last_unit (s : string) : option ascii :=
  match s with
  | EmptyString => None
  | String a EmptyString => Some a
  | String _ r => last_unit r
  end.

Definition first_unit (s : string) : option ascii :=
  match s with
  | EmptyString => None
  | String a _ => Some a
  end.

(** The number of occurrences of a code unit. *)
Fixpoint count_unit (c : ascii) (s : string) : nat :=
  match s with
  | EmptyString => O
  | String a r => if Ascii.eqb a c then S (count_unit c r) else count_unit c r
  end.

(** A variable of [process.env] that is set to a text that is not empty;
    [!v] holds of every other. *)
Definition env_var (env : gmap string string) (name : string) : option string :=
  match env !! name with
  | Some (String a r) => Some (String a r)
  | Some EmptyString => None
  | None => None
  end.

(** The arguments that [ChatBot.fromEnv] passes to the constructor. *)
Record ChatBotArgs : Type := {
  arg_username : string;
  arg_token : string;
  arg_channels : list string
}.

Definition missing_chat : string :=
  "Missing chat bot credentials. Set TWITCH_CHAT_USERNAME, TWITCH_CHAT_TOKEN, and TWITCH_CHAT_CHANNELS.".

(** [ChatBot.fromEnv]: the arguments of the constructor, or the message of
    the error that is thrown. *)
Definition ChatBot_fromEnv (env : gmap string string) : ChatBotArgs + string :=
  match env_var env "TWITCH_CHAT_USERNAME", env_var env "TWITCH_CHAT_TOKEN",
        env_var env "TWITCH_CHAT_CHANNELS" with
  | Some u, Some t, Some c =>
      inl {| arg_username := u; arg_token := t;
             arg_channels := map trim (JsString.split "," c) |}
  | _, _, _ => inr missing_chat
  end.

Definition missing_twitch : string :=
  "Missing Twitch credentials. Set TWITCH_CLIENT_ID and TWITCH_CLIENT_SECRET.".

(** [TwitchClient.fromEnv]: the client id and the client secret, or the
    message of the error. *)
Definition TwitchClient_fromEnv (env : gmap string string) : (string * string) + string :=
  match env_var env "TWITCH_CLIENT_ID", env_var env "TWITCH_CLIENT_SECRET" with
  | Some i, Some s => inl (i, s)
  | _, _ => inr missing_twitch
  end.

End Config.

(** ** The signature check of [src/twitchClient.ts] *)

Module Signature.

(** [Buffer.from(s)]: the bytes of the UTF-8 encoding; a code unit from
    128 on takes two bytes. *)
Definition utf8_unit (a : ascii) : list N :=
  let n := N_of_ascii a in
  if (n <? 128)%N then [n] else [(192 + n / 64)%N; (128 + n mod 64)%N].

Fixpoint Buffer_from (s : string) : list N :=
  match s with
  | EmptyString => []
  | String a r => (utf8_unit a ++ Buffer_from r)%list
  end.

Fixpoint bytes_eqb (a b : list N) : bool :=
  match a, b with
  | [], [] => true
  | x :: a', y :: b' => (x =? y)%N && bytes_eqb a' b'
  | _, _ => false
  end.

(** [crypto.timingSafeEqual(a, b)]; [None] is the RangeError for buffers
    of different lengths. *)
Definition timingSafeEqual (a b : list N) : option bool :=
  if (length a =? length b)%nat then Some (bytes_eqb a b) else None.

Section Hmac.

(** [crypto.createHmac('sha256', secret).update(message).digest('hex')]. *)
Variable hmac_sha256_hex : string -> string -> string.

Definition expected_signature (id timestamp body secret : string) : string :=
  "sha256=" ++ hmac_sha256_hex secret (id ++ timestamp ++ body).

(** [verifyEventSubSignature]; [None] when it throws. *)
Definition verifyEventSubSignature (id timestamp body signature secret : string) : option bool :=
  let expected := expected_signature id timestamp body secret in
  let sigBuf := Buffer_from signature in
  let expBuf := Buffer_from expected in
  if (length sigBuf =? length expBuf)%nat then timingSafeEqual sigBuf expBuf
  else Some false.

End Hmac.

End Signature.

(** ** The Helix client ([src/twitchClient.ts]) *)

Module Twitch.
Import JsString Json EventSub.

Record AxiosRequestConfig : Type := {
  url : string;
  method : string;
  params : list (string * string);
  data : option json
}.

(** The answer of the token endpoint: the request fails, or its body holds
    an [access_token] or none. *)
Inductive TokenResult : Type :=
| TokenFail (reason : string)
| TokenOk (access_token : option string).

(** One call of [this.http.request(config)]: the configuration, and
    the default headers of the instance ([this.http.defaults.headers.common])
    at the time of the call. What the HTTP layer makes of a header on
    the wire (white space at the end of a value does not arrive) is on
    the side of [helix]. *)
Record Sent : Type := {
  default_headers : gmap string string;
  sent_config : AxiosRequestConfig
}.

(** The client and what it touches. [token_endpoint n] answers the n-th
    post to the token endpoint and [helix n] the n-th call of
    [this.http.request], after rate limiting and the retries of the
    HTTP layer; [sent] are these calls. *)
Record Client : Type := {
  clientId : string;
  clientSecret : string;
  accessToken : option string;
  headers : gmap string string;
  token_endpoint : nat -> TokenResult;
  helix : nat -> Sent -> outcome json;
  token_posts : list (list (string * string));
  sent : list Sent;
  apiRequestCounter : list string;
  info_log : list string
}.

Definition C (A : Type) : Type := Client -> outcome A * Client.

Definition cret {A} (a : A) : C A := fun c => (Ok a, c).

Definition cbind {A B} (m : C A) (k : A -> C B) : C B :=
  fun c =>
    match m c with
    | (Ok a, c') => k a c'
    | (Err e, c') => (Err e, c')
    end.

(** The truth value of [this.accessToken]. *)
Definition has_token (c : Client) : bool :=
  match accessToken c with
  | Some (String _ _) => true
  | Some EmptyString => false
  | None => false
  end.

(** The credentials that [authenticate] posts. *)
Definition credentials (c : Client) : list (string * string) :=
  [("client_id", clientId c); ("client_secret", clientSecret c);
   ("grant_type", "client_credentials")].

(** The default headers once [authenticate] has assigned [Client-ID]
    and [Authorization]. *)
Definition signed_headers (c : Client) (t : option string) : gmap string string :=
  <["Authorization" := "Bearer " ++ JsString.interpolate t]>
    (<["Client-ID" := clientId c]> (headers c)).

(** [axios.post('https://id.twitch.tv/oauth2/token', params)]. *)
Definition post_token (ps : list (string * string)) : C (option string) :=
  fun c =>
    let c' :=
      {| clientId := clientId c; clientSecret := clientSecret c;
         accessToken := accessToken c; headers := headers c;
         token_endpoint := token_endpoint c; helix := helix c;
         token_posts := token_posts c ++ [ps]; sent := sent c;
         apiRequestCounter := apiRequestCounter c; info_log := info_log c |} in
    match token_endpoint c (length (token_posts c)) with
    | TokenFail reason => (Err (RemoteError reason), c')
    | TokenOk t => (Ok t, c')
    end.

(** The three assignments at the end of [authenticate]. *)
Definition cache_token (t : option string) : C unit :=
  fun c =>
    (Ok tt,
     {| clientId := clientId c; clientSecret := clientSecret c;
        accessToken := t;
        headers := signed_headers c t;
        token_endpoint := token_endpoint c; helix := helix c;
        token_posts := token_posts c; sent := sent c;
        apiRequestCounter := apiRequestCounter c; info_log := info_log c |}).

(** [authenticate]. *)
Definition authenticate : C unit :=
  fun c =>
    if has_token c then (Ok tt, c)
    else
      cbind (post_token (credentials c)) cache_token c.

(** [this.limiter.schedule(() => this.http.request(config))], giving
    [resp.data]. *)
Definition http_request (config : AxiosRequestConfig) : C json :=
  fun c =>
    let s := {| default_headers := headers c; sent_config := config |} in
    (helix c (length (sent c)) s,
     {| clientId := clientId c; clientSecret := clientSecret c;
        accessToken := accessToken c; headers := headers c;
        token_endpoint := token_endpoint c; helix := helix c;
        token_posts := token_posts c; sent := sent c ++ [s];
        apiRequestCounter := apiRequestCounter c; info_log := info_log c |}).

(** [apiRequestCounter.add(1, { endpoint })]. *)
Definition count_request (endpoint : string) : C unit :=
  fun c =>
    (Ok tt,
     {| clientId := clientId c; clientSecret := clientSecret c;
        accessToken := accessToken c; headers := headers c;
        token_endpoint := token_endpoint c; helix := helix c;
        token_posts := token_posts c; sent := sent c;
        apiRequestCounter := apiRequestCounter c ++ [endpoint];
        info_log := info_log c |}).

Definition info (msg : string) : C unit :=
  fun c =>
    (Ok tt,
     {| clientId := clientId c; clientSecret := clientSecret c;
        accessToken := accessToken c; headers := headers c;
        token_endpoint := token_endpoint c; helix := helix c;
        token_posts := token_posts c; sent := sent c;
        apiRequestCounter := apiRequestCounter c;
        info_log := info_log c ++ [msg] |}).

(** [request]. *)
Definition request (config : AxiosRequestConfig) : C json :=
  cbind authenticate (fun _ =>
  cbind (http_request config) (fun resp =>
  cbind (count_request (url config)) (fun _ =>
  cret resp))).

(** [getStreamInfo]. *)
Definition getStreamInfo (userLogin : string) : C json :=
  request {| url := "/streams"; method := "GET";
             params := [("user_login", userLogin)]; data := None |}.

(** The payload of a subscription. *)
Definition payload (type : string) (condition : list (string * string))
    (callback secret : string) : json :=
  JObj [(wide "type", JStr (wide type)); (wide "version", JStr (wide "1"));
        (wide "condition",
         JObj (strings_obj (map (fun p => (wide (fst p), wide (snd p))) condition)));
        (wide "transport",
         JObj [(wide "method", JStr (wide "webhook")); (wide "callback", JStr (wide callback));
               (wide "secret", JStr (wide secret))])].

(** [createEventSubSubscription]. *)
Definition createEventSubSubscription (type : string)
    (condition : list (string * string)) (callback secret : string) : C json :=
  cbind (request {| url := "/eventsub/subscriptions"; method := "POST";
                    params := []; data := Some (payload type condition callback secret) |})
        (fun result =>
  cbind (info "EventSub subscription requested") (fun _ =>
  cret result)).

(** A client fresh from the constructor. *)
Definition new_client (id secret : string) (te : nat -> TokenResult)
    (hx : nat -> Sent -> outcome json) : Client :=
  {| clientId := id; clientSecret := secret; accessToken := None; headers := ∅;
     token_endpoint := te; helix := hx; token_posts := []; sent := [];
     apiRequestCounter := []; info_log := [] |}.

End Twitch.

(** ** Runs of calls *)

Module Runs.
Import JsString EventSub.

(** The same call of [ensureSubscription], [n] times in a row; the run
    stops at the first failure. *)
Fixpoint ensure_times (Date_getTime : option Json.json -> option Z) (n : nat)
    (type : text) (condition : list (text * text)) (callback secret : text) : M unit :=
  match n with
  | O => ret tt
  | S m =>
      bind (ensureSubscription Date_getTime type condition callback secret)
        (fun _ => ensure_times Date_getTime m type condition callback secret)
  end.

(** [state[key]] for the state that [loadState] returns: what the store
    holds under a key. *)
Definition store_get (m : medium) (key : text) : option Json.json :=
  match stored m with
  | Json.JObj o => Json.obj_get o key
  | _ => None
  end.

End Runs.

(** ** More samples *)

Module Fixtures.
Import JsString Chat EventSub.

(** The broadcaster, who is a moderator as well. *)
Definition streamer : ChatUserstate :=
  {| user_id := Some "9"; username := Some "host";
     badges := Some {| badge_broadcaster := Some "1"; badge_vip := None;
                       badge_subscriber := None |};
     is_mod := true |}.

(** Two users whose [user-id] is missing. *)
Definition guest1 : ChatUserstate :=
  {| user_id := None; username := Some "guest1"; badges := None; is_mod := false |}.

Definition guest2 : ChatUserstate :=
  {| user_id := None; username := Some "guest2"; badges := None; is_mod := false |}.

Definition ping_entry : Entry (list string) :=
  {| handler := Sample.push "pong";
     options := {| cooldownMs := Some 1000; roles := None |} |}.

Definition raid_entry : Entry (list string) :=
  {| handler := Sample.push_args;
     options := {| cooldownMs := None; roles := Some [broadcaster; moderator] |} |}.

Definition modonly_entry : Entry (list string) :=
  {| handler := Sample.push "mod";
     options := {| cooldownMs := None; roles := Some [moderator] |} |}.

Definition modonly_bot : Bot (list string) :=
  registerCommand "modonly" (Sample.push "mod")
    {| cooldownMs := None; roles := Some [moderator] |} (new_bot []).

(** A command whose cooldown is 0 ms. *)
Definition hello_entry : Entry (list string) :=
  {| handler := Sample.push "hello";
     options := {| cooldownMs := Some 0; roles := None |} |}.

Definition hello_bot : Bot (list string) :=
  registerCommand "hello" (Sample.push "hello")
    {| cooldownMs := Some 0; roles := None |} (new_bot []).

Definition t0 : Z := 1700000000000.

(** A record with exactly 60 seconds to live at [t0], and its store. *)
Definition expiring : Descriptor :=
  {| id := wide "old"; expires_at := wide "2023-11-14T22:14:20.000Z" |}.

Definition expiring_store : Json.json :=
  Json.JObj [(makeKey (wide "stream.online") Sample.online,
              record_of expiring (wide "stream.online") Sample.online)].

(** A world whose state file cannot be opened for writing. *)
Definition readonly_world (m : medium) (a : nat -> Request -> ApiResult) : World :=
  {| file := m; writable := false; torn := None;
     clock := fun n => Z.of_nat n + 1700000000000; ticks := 0;
     api := a; requests := []; writes := []; timers := []; log := [] |}.

(** A world whose clock stands still. *)
Definition frozen_world (m : medium) (a : nat -> Request -> ApiResult) : World :=
  {| file := m; writable := true; torn := None;
     clock := fun _ => 1700000000000; ticks := 0;
     api := a; requests := []; writes := []; timers := []; log := [] |}.

(** A world in which a write of the state file fails after the file was
    opened, with [rest] written. *)
Definition torn_world (m : medium) (rest : text) (a : nat -> Request -> ApiResult) : World :=
  {| file := m; writable := false; torn := Some rest;
     clock := fun n => Z.of_nat n + 1700000000000; ticks := 0;
     api := a; requests := []; writes := []; timers := []; log := [] |}.

(** A second subscription, for the counting of requests. *)
Definition sub2 : Descriptor :=
  {| id := wide "sub2"; expires_at := wide "2023-11-14T23:13:20.000Z" |}.

(** An environment with all the variables of the chat bot and of the
    client. *)
Definition full_env : gmap string string :=
  list_to_map [("TWITCH_CHAT_USERNAME", "bot"); ("TWITCH_CHAT_TOKEN", "oauth:x");
               ("TWITCH_CHAT_CHANNELS", "#one, #two ,");
               ("TWITCH_CLIENT_ID", "id"); ("TWITCH_CLIENT_SECRET", "secret")].

(** A client whose token endpoint answers as given and whose Helix
    answers [null]. *)
Definition client (te : nat -> Twitch.TokenResult) : Twitch.Client :=
  Twitch.new_client "id" "secret" te (fun _ _ => Ok Json.JNull).

Definition streams : Twitch.AxiosRequestConfig :=
  {| Twitch.url := "/streams"; Twitch.method := "GET";
     Twitch.params := [("user_login", "SolarKhan")]; Twitch.data := None |}.

End Fixtures.

(** * Facts about the JSON built-ins *)

Import Json.

Section JsonInduction.
Variable P : json -> Prop.
Hypothesis HNull : P JNull.
Hypothesis HBool : forall b, P (JBool b).
Hypothesis HNum : forall x, P (JNum x).
Hypothesis HStr : forall s, P (JStr s).
Hypothesis HArr : forall l, Forall P l -> P (JArr l).
Hypothesis HObj : forall o, Forall (fun p => P (snd p)) o -> P (JObj o).

Lemma json_nested_ind : forall v, P v.
Proof.
  fix IH 1. intros [ | b | x | s | l | o].
  - exact HNull.
  - apply HBool.
  - apply HNum.
  - apply HStr.
  - apply HArr. induction l as [|e l IHl]; constructor; [apply IH | exact IHl].
  - apply HObj. induction o as [|p o IHo]; constructor; [apply IH | exact IHo].
Qed.
End JsonInduction.

Lemma append_assoc (a b c : string) : ((a ++ b) ++ c = a ++ (b ++ c))%string.
Proof. induction a; simpl; congruence. Qed.

Lemma append_nil_r (a : string) : (a ++ EmptyString)%string = a.
Proof. induction a; simpl; congruence. Qed.

Lemma length_append (a b : string) :
  String.length (a ++ b) = (String.length a + String.length b)%nat.
Proof. induction a; simpl; congruence. Qed.

Section JsonFacts.
Import JsString.
#[local] Open Scope list_scope.

(** *** Texts *)

Lemma text_eqb_spec (a b : text) : reflect (a = b) (text_eqb a b).
Proof.
  revert b. induction a as [|x a IH]; intros [|y b]; simpl; try (constructor; congruence).
  destruct (N.eqb_spec x y) as [->|Hne]; simpl.
  - destruct (IH b) as [->|Hne]; constructor; congruence.
  - constructor. congruence.
Qed.


Lemma text_eqb_sym (a b : text) : text_eqb a b = text_eqb b a.
Proof. destruct (text_eqb_spec a b), (text_eqb_spec b a); congruence. Qed.

Lemma code_bound a : (code a < 256)%N.
Proof. apply N_ascii_bounded. Qed.

Lemma wide_inj s1 s2 : wide s1 = wide s2 -> s1 = s2.
Proof.
  revert s2. induction s1 as [|a s1 IH]; intros [|b s2] H; try discriminate; [reflexivity|].
  simpl in H. injection H as Hc H. f_equal; [|now apply IH].
  unfold code in Hc. rewrite <- (ascii_N_embedding a), <- (ascii_N_embedding b). now rewrite Hc.
Qed.

Lemma narrow_wide s : narrow (wide s) = Some s.
Proof.
  induction s as [|a s IH]; simpl; [reflexivity|].
  pose proof (code_bound a) as Hb. apply N.ltb_lt in Hb. rewrite Hb, IH.
  unfold code. now rewrite ascii_N_embedding.
Qed.

(** *** Reading what was quoted *)

Lemma skip_ws_spaces n s : skip_ws (spaces n ++ s) = skip_ws s.
Proof. induction n; simpl; auto. Qed.

Lemma skip_ws_pad gap k s : skip_ws (pad gap k ++ s) = skip_ws s.
Proof. destruct gap; simpl; [reflexivity|]. apply skip_ws_spaces. Qed.

Lemma hex_value_hex_digit d : (d < 16)%N -> hex_value (hex_digit d) = Some d.
Proof.
  intros Hd. unfold hex_value, hex_digit. destruct (N.ltb_spec d 10).
  - destruct (N.leb_spec 48 (48 + d)); [|lia].
    destruct (N.leb_spec (48 + d) 57); [|lia]. simpl. f_equal. lia.
  - destruct (N.leb_spec 48 (87 + d)); [|lia].
    destruct (N.leb_spec (87 + d) 57); [lia|]. simpl.
    destruct (N.leb_spec 97 (87 + d)); [|lia].
    destruct (N.leb_spec (87 + d) 102); [|lia]. simpl. f_equal. lia.
Qed.

(** A code unit that stands for itself in a string literal. *)
Lemma parse_chars_raw a t :
  (32 <= a)%N -> a <> 34%N -> a <> 92%N ->
  parse_chars (a :: t) = prepend a (parse_chars t).
Proof.
  intros H1 H2 H3. cbn [parse_chars]. unfold dquote, code.
  destruct (N.eqb_spec a 34); [contradiction|].
  destruct (N.eqb_spec a (N_of_ascii "\")); [contradiction|].
  destruct (N.ltb_spec a 32); [lia | reflexivity].
Qed.

Lemma parse_chars_unicode_text a t :
  (a < 65536)%N -> parse_chars (unicode_text a ++ t) = prepend a (parse_chars t).
Proof.
  intros Ha. unfold unicode_text. cbn [wide app parse_chars].
  change (code "\" =? dquote)%N with false. change (code "\" =? code "\")%N with true.
  change (code "u" =? code "u")%N with true. cbv iota.
  pose proof (N.div_mod a 16) as E1. pose proof (N.mod_lt a 16) as B1.
  pose proof (N.div_mod (a / 16) 16) as E2. pose proof (N.mod_lt (a / 16) 16) as B2.
  pose proof (N.div_mod (a / 16 / 16) 16) as E3. pose proof (N.mod_lt (a / 16 / 16) 16) as B3.
  revert E1 B1 E2 B2 E3 B3.
  generalize (a mod 16)%N (a / 16 mod 16)%N (a / 16 / 16 mod 16)%N.
  generalize (a / 16 / 16 / 16)%N. generalize (a / 16 / 16)%N. generalize (a / 16)%N.
  intros q1 q2 q3 r0 r1 r2 E1 B1 E2 B2 E3 B3.
  unfold unicode_escape.
  rewrite !hex_value_hex_digit by lia. do 2 f_equal. lia.
Qed.

Lemma surrogate_bounds a : is_high a = true \/ is_low a = true -> (55296 <= a < 57344)%N.
Proof.
  unfold is_high, is_low. intros [H|H]; apply andb_prop in H as [H1 H2];
    apply N.leb_le in H1, H2; lia.
Qed.

(** Every code unit is read back from what [quote_unit] writes for
    it. *)
Lemma parse_chars_unit a t : parse_chars (quote_unit a ++ t) = prepend a (parse_chars t).
Proof.
  unfold quote_unit.
  repeat match goal with
         | |- context [(a =? ?n)%N] => destruct (N.eqb_spec a n) as [->|?]; [reflexivity|]
         end.
  destruct ((a <? 32)%N || is_high a || is_low a) eqn:E.
  - apply parse_chars_unicode_text.
    apply orb_prop in E as [E|E]; [apply orb_prop in E as [E|E]|].
    + apply N.ltb_lt in E. lia.
    + pose proof (surrogate_bounds a (or_introl E)). lia.
    + pose proof (surrogate_bounds a (or_intror E)). lia.
  - apply orb_false_elim in E as [E _]. apply orb_false_elim in E as [E _].
    apply N.ltb_ge in E. now apply parse_chars_raw.
Qed.

Lemma quote_body_cons a b r :
  quote_body (a :: b :: r)
  = if is_high a && is_low b then a :: b :: quote_body r
    else quote_unit a ++ quote_body (b :: r).
Proof. reflexivity. Qed.

Lemma parse_chars_quote_body_bounded n : forall s rest,
  (length s <= n)%nat ->
  parse_chars (quote_body s ++ dquote :: rest) = Some (s, rest).
Proof.
  induction n as [n IH] using lt_wf_ind. intros [|a [|b r]] rest Hlen.
  - reflexivity.
  - cbn [quote_body]. rewrite parse_chars_unit. reflexivity.
  - rewrite quote_body_cons. destruct (is_high a && is_low b) eqn:E.
    + apply andb_prop in E as [Ea Eb].
      pose proof (surrogate_bounds a (or_introl Ea)).
      pose proof (surrogate_bounds b (or_intror Eb)).
      cbn [app]. rewrite !parse_chars_raw by lia.
      assert (Hr : (length r < n)%nat) by (simpl in Hlen; lia).
      rewrite (IH (length r) Hr r rest (le_n _)). reflexivity.
    + rewrite <- app_assoc, parse_chars_unit.
      assert (Hr : (length (b :: r) < n)%nat) by (simpl in Hlen |- *; lia).
      rewrite (IH (length (b :: r)) Hr (b :: r) rest (le_n _)). reflexivity.
Qed.

Lemma parse_chars_quote_body s rest :
  parse_chars (quote_body s ++ dquote :: rest) = Some (s, rest).
Proof. now apply (parse_chars_quote_body_bounded (length s)). Qed.

Lemma skip_ws_dquote t : skip_ws (dquote :: t) = dquote :: t.
Proof. reflexivity. Qed.

Lemma parse_value_string f s t x rest :
  skip_ws s = dquote :: t -> parse_chars t = Some (x, rest) ->
  parse_value (S f) s = Some (JStr x, rest).
Proof. intros H1 H2. cbn [parse_value]. rewrite H1. cbn. rewrite H2. reflexivity. Qed.

Lemma parse_value_empty_obj f s r rest :
  skip_ws s = code "{" :: r -> skip_ws r = code "}" :: rest ->
  parse_value (S f) s = Some (JObj [], rest).
Proof. intros H1 H2. cbn [parse_value]. rewrite H1. cbn. rewrite H2. reflexivity. Qed.

Lemma parse_value_obj f s r t :
  skip_ws s = code "{" :: r -> skip_ws r = dquote :: t ->
  parse_value (S f) s = parse_members f [] (dquote :: t).
Proof. intros H1 H2. cbn [parse_value]. rewrite H1. cbn. rewrite H2. reflexivity. Qed.

Lemma parse_members_step f acc s t k r1 r2 v r3 :
  skip_ws s = dquote :: t -> parse_chars t = Some (k, r1) ->
  skip_ws r1 = code ":" :: r2 -> parse_value f r2 = Some (v, r3) ->
  parse_members (S f) acc s =
    match skip_ws r3 with
    | d :: r4 =>
        if (d =? code ",")%N then parse_members f (obj_set acc k v) r4
        else if (d =? code "}")%N then Some (JObj (obj_set acc k v), r4)
        else None
    | [] => None
    end.
Proof.
  intros H1 H2 H3 H4. cbn [parse_members]. rewrite H1. cbn. rewrite H2, H3. cbn.
  rewrite H4. reflexivity.
Qed.

Lemma wrap_cons o c gap ind item items :
  wrap o c gap ind (item :: items) =
  o ++ pad gap (ind + gap)
    ++ join_texts (wide "," ++ pad gap (ind + gap)) (item :: items)
    ++ pad gap ind ++ c.
Proof.
  unfold wrap, pad. destruct gap as [|g]; [reflexivity|].
  rewrite <- !app_assoc. reflexivity.
Qed.

Lemma skip_ws_colon gap t :
  exists r2, skip_ws (colon gap ++ t) = code ":" :: r2 /\ skip_ws r2 = skip_ws t.
Proof.
  destruct gap; simpl.
  - exists t. split; reflexivity.
  - exists (code " " :: t). split; reflexivity.
Qed.

Lemma item_text gap ind k v T :
  item gap ind (k, v) ++ T =
  dquote :: quote_body k ++ dquote :: colon gap ++ serialize gap ind v ++ T.
Proof.
  unfold item, quote. cbn [fst snd]. rewrite <- !app_assoc. cbn [app].
  rewrite <- !app_assoc. reflexivity.
Qed.

Lemma join_members gap ind props T :
  props <> [] ->
  join_texts (wide "," ++ pad gap (ind + gap)) (map (item gap (ind + gap)) props) ++ pad gap ind ++ T
  = members_text gap ind props T.
Proof.
  induction props as [|p props IH]; intros Hne; [congruence|].
  destruct props as [|q props]; [reflexivity|].
  change (members_text gap ind (p :: q :: props) T)
    with (item gap (ind + gap) p ++ wide "," ++ pad gap (ind + gap)
          ++ members_text gap ind (q :: props) T).
  rewrite <- IH by discriminate.
  change (map (item gap (ind + gap)) (p :: q :: props))
    with (item gap (ind + gap) p :: item gap (ind + gap) q :: map (item gap (ind + gap)) props).
  change (map (item gap (ind + gap)) (q :: props))
    with (item gap (ind + gap) q :: map (item gap (ind + gap)) props).
  change (join_texts (wide "," ++ pad gap (ind + gap))
            (item gap (ind + gap) p :: item gap (ind + gap) q :: map (item gap (ind + gap)) props))
    with (item gap (ind + gap) p ++ (wide "," ++ pad gap (ind + gap))
          ++ join_texts (wide "," ++ pad gap (ind + gap))
               (item gap (ind + gap) q :: map (item gap (ind + gap)) props)).
  rewrite <- !app_assoc. reflexivity.
Qed.

Lemma members_text_head gap ind k v props T :
  exists T', members_text gap ind ((k, v) :: props) T
             = dquote :: quote_body k ++ dquote
                 :: colon gap ++ serialize gap (ind + gap) v ++ T'
    /\ match props with
       | [] => T' = pad gap ind ++ T
       | _ => T' = code "," :: pad gap (ind + gap) ++ members_text gap ind props T
       end.
Proof.
  destruct props as [|q props].
  - cbn [members_text]. rewrite item_text. eexists; split; reflexivity.
  - change (members_text gap ind ((k, v) :: q :: props) T)
      with (item gap (ind + gap) (k, v) ++ wide "," ++ pad gap (ind + gap)
            ++ members_text gap ind (q :: props) T).
    rewrite item_text. eexists; split; reflexivity.
Qed.

Lemma skip_ws_serialize gap ind v T :
  string_tree v = true ->
  skip_ws (serialize gap ind v ++ T) = serialize gap ind v ++ T.
Proof.
  destruct v as [ | b | x | t | l | o]; try discriminate; intros _.
  - reflexivity.
  - simpl. unfold wrap.
    destruct (map _ o); [reflexivity|]. destruct gap; reflexivity.
Qed.

Lemma parse_members_items gap ind rest props :
  Forall (fun p => roundtrips (snd p)) props ->
  forallb (fun p => string_tree (snd p)) props = true ->
  props <> [] ->
  forall acc fuel s,
    (list_sum (map (fun p => S (size (snd p))) props) <= fuel)%nat ->
    skip_ws s = members_text gap ind props (code "}" :: rest) ->
    parse_members fuel acc s =
      Some (JObj (fold_left (fun a p => obj_set a (fst p) (snd p)) (map normal_entry props) acc), rest).
Proof.
  induction 1 as [|[k v] props Hv Hprops IH]; intros Hst Hne acc fuel s Hfuel Hs; [congruence|].
  unfold roundtrips in Hv. cbn [snd] in Hv.
  cbn [forallb snd] in Hst. apply andb_prop in Hst as [Hstv Hst].
  simpl in Hfuel. destruct fuel as [|f]; [lia|].
  destruct (members_text_head gap ind k v props (code "}" :: rest)) as (T' & HT & HT').
  rewrite HT in Hs.
  destruct (skip_ws_colon gap (serialize gap (ind + gap) v ++ T')) as (r2 & Hc & Hr2).
  erewrite parse_members_step; [ | exact Hs | apply parse_chars_quote_body | exact Hc | ].
  2:{ apply (Hv Hstv gap (ind + gap)%nat); [lia | ]. rewrite Hr2. apply skip_ws_serialize, Hstv. }
  destruct props as [|q props]; subst T'.
  - rewrite skip_ws_pad. reflexivity.
  - cbn [skip_ws is_ws]. change (is_ws (code ",")) with false. cbv iota.
    change (code "," =? code ",")%N with true. cbv iota.
    cbn [map fold_left normal_entry fst snd].
    apply IH; [exact Hst | discriminate | lia | ].
    rewrite skip_ws_pad. destruct q as [k' v'].
    destruct (members_text_head gap ind k' v' props (code "}" :: rest)) as (T2 & HT2 & _).
    rewrite HT2. reflexivity.
Qed.

Lemma serialize_obj gap ind props :
  serialize gap ind (JObj props)
  = wrap (wide "{") (wide "}") gap ind (map (item gap (ind + gap)) props).
Proof. reflexivity. Qed.

Theorem parse_value_serialize v : roundtrips v.
Proof.
  induction v as [ | b | x | t | l IH | o IH] using json_nested_ind;
    intros Hst gap ind rest fuel s Hfuel Hs; try discriminate.
  - (* a string *)
    destruct fuel as [|f]; [simpl in Hfuel; lia|].
    unfold serialize, quote in Hs. cbn [app] in Hs. rewrite <- app_assoc in Hs.
    eapply parse_value_string; [exact Hs | apply parse_chars_quote_body].
  - (* an object *)
    cbn [string_tree] in Hst. cbn [size] in Hfuel. destruct fuel as [|f]; [lia|].
    rewrite serialize_obj in Hs.
    destruct o as [|[k v] o].
    + simpl in Hs. eapply parse_value_empty_obj; [exact Hs | reflexivity].
    + cbn [map] in Hs. rewrite wrap_cons in Hs.
      change (item gap (ind + gap) (k, v) :: map (item gap (ind + gap)) o)
        with (map (item gap (ind + gap)) ((k, v) :: o)) in Hs.
      rewrite <- !app_assoc in Hs.
      rewrite join_members in Hs by discriminate.
      change (wide "}" ++ rest) with (code "}" :: rest) in Hs.
      destruct (members_text_head gap ind k v o (code "}" :: rest)) as (T' & HT & _).
      cbn [wide app] in Hs.
      erewrite parse_value_obj; [ | exact Hs | rewrite skip_ws_pad, HT; reflexivity ].
      cbn [normalize]. unfold obj_of_entries.
      apply (parse_members_items gap ind rest ((k, v) :: o)); try assumption.
      * discriminate.
      * lia.
      * rewrite HT. reflexivity.
Qed.

(** *** The length of a text bounds the budget its parse needs *)

Lemma join_length sep items :
  (list_sum (map (@length N) items) <= length (join_texts sep items))%nat.
Proof.
  induction items as [|i items IH]; [simpl; lia|].
  destruct items as [|j items]; [simpl; lia|].
  change (join_texts sep (i :: j :: items)) with (i ++ sep ++ join_texts sep (j :: items)).
  rewrite !length_app. simpl in *. lia.
Qed.

Lemma wrap_length o c gap ind items :
  (list_sum (map (@length N) items) + length o <= length (wrap o c gap ind items))%nat.
Proof.
  destruct items as [|i items].
  - simpl. rewrite length_app. lia.
  - rewrite wrap_cons. rewrite !length_app.
    pose proof (join_length (wide "," ++ pad gap (ind + gap)) (i :: items)). lia.
Qed.

Lemma size_le_length v :
  string_tree v = true -> forall gap ind, (size v <= length (serialize gap ind v))%nat.
Proof.
  induction v as [ | b | x | t | l IH | o IH] using json_nested_ind;
    intros Hst gap ind; try discriminate.
  - simpl. lia.
  - rewrite serialize_obj. cbn [size string_tree] in *.
    pose proof (wrap_length (wide "{") (wide "}") gap ind (map (item gap (ind + gap)) o)) as Hw.
    enough (list_sum (map (fun p => S (size (snd p))) o)
            <= list_sum (map (@length N) (map (item gap (ind + gap)) o)))%nat
      by (change (length (wide "{")) with 1%nat in Hw; lia).
    clear Hw. induction IH as [|[k v] o Hv Ho IHo]; [simpl; lia|].
    simpl in Hst. apply andb_prop in Hst as [Hstv Hst].
    specialize (IHo Hst). specialize (Hv Hstv gap (ind + gap)%nat).
    cbn [map list_sum snd]. unfold item at 1. cbn [fst snd].
    rewrite !length_app. simpl in Hv |- *. lia.
Qed.

(** [JSON.parse] reads back what [JSON.stringify] wrote. *)
Theorem parse_serialize v gap ind :
  string_tree v = true -> parse (serialize gap ind v) = Some (normalize v).
Proof.
  intros Hst. unfold parse.
  rewrite (parse_value_serialize v Hst gap ind [] (S (length (serialize gap ind v)))
             (serialize gap ind v)).
  - reflexivity.
  - pose proof (size_le_length v Hst gap ind). lia.
  - rewrite <- (app_nil_r (serialize gap ind v)) at 1.
    apply skip_ws_serialize, Hst.
Qed.

(** *** Objects: reading, assigning, building *)


Lemma has_key_false o k : has_key o k = false <-> k ∉ keys o.
Proof.
  unfold has_key, keys. induction o as [|[k' v'] o IH]; simpl.
  - split; [intros _; apply not_elem_of_nil | reflexivity].
  - rewrite not_elem_of_cons. destruct (text_eqb_spec k' k) as [->|Hne].
    + split; [discriminate | intros [H _]; congruence].
    + rewrite IH. split; [intros H; split; [congruence | exact H] | tauto].
Qed.

Lemma keys_replace_value o k v : keys (replace_value o k v) = keys o.
Proof.
  induction o as [|[k' v'] o IH]; simpl; [reflexivity|].
  destruct (text_eqb k' k); simpl; [reflexivity | now rewrite IH].
Qed.

Lemma keys_insert_new o k v : Permutation (keys (insert_new o k v)) (k :: keys o).
Proof.
  induction o as [|[k' v'] o IH]; simpl; [reflexivity|].
  destruct (may_precede k' k); simpl; [|reflexivity].
  rewrite IH. apply perm_swap.
Qed.

Lemma NoDup_obj_set o k v : NoDup (keys o) -> NoDup (keys (obj_set o k v)).
Proof.
  intros Hnd. unfold obj_set. destruct (has_key o k) eqn:Hk.
  - now rewrite keys_replace_value.
  - apply has_key_false in Hk.
    rewrite keys_insert_new. apply NoDup_cons_2; assumption.
Qed.

Lemma obj_get_replace_value o k v k' :
  obj_get (replace_value o k v) k' =
  if text_eqb k k' then (if has_key o k then Some v else None) else obj_get o k'.
Proof.
  unfold has_key. induction o as [|[k0 v0] o IH]; simpl.
  - now destruct (text_eqb k k').
  - destruct (text_eqb_spec k0 k) as [->|Hne]; simpl.
    + destruct (text_eqb_spec k k'); reflexivity.
    + rewrite IH. destruct (text_eqb_spec k k') as [->|Hne'].
      * destruct (text_eqb_spec k0 k'); [congruence | reflexivity].
      * reflexivity.
Qed.

Lemma obj_get_insert_new o k v k' :
  has_key o k = false ->
  obj_get (insert_new o k v) k' = if text_eqb k k' then Some v else obj_get o k'.
Proof.
  unfold has_key. induction o as [|[k0 v0] o IH]; simpl; intros Hk.
  - reflexivity.
  - destruct (text_eqb_spec k0 k) as [->|Hne]; [discriminate|].
    destruct (may_precede k0 k); simpl.
    + rewrite (IH Hk). destruct (text_eqb_spec k k') as [->|Hne'].
      * destruct (text_eqb_spec k0 k'); [congruence | reflexivity].
      * reflexivity.
    + reflexivity.
Qed.

(** Reading after assigning. *)
Lemma obj_get_obj_set o k v k' :
  obj_get (obj_set o k v) k' = if text_eqb k k' then Some v else obj_get o k'.
Proof.
  unfold obj_set. destruct (has_key o k) eqn:Hk.
  - rewrite obj_get_replace_value, Hk. reflexivity.
  - now apply obj_get_insert_new.
Qed.


Lemma obj_get_None o k : obj_get o k = None <-> k ∉ keys o.
Proof. rewrite <- has_key_false. unfold has_key. destruct (obj_get o k); split; congruence. Qed.

(** Building an object from a list without repeated names keeps every
    property. *)
Lemma obj_get_fold l : forall acc k,
  NoDup (keys l) ->
  obj_get (fold_left (fun a p => obj_set a (fst p) (snd p)) l acc) k =
  match obj_get l k with
  | Some v => Some v
  | None => obj_get acc k
  end.
Proof.
  induction l as [|[k0 v0] l IH]; intros acc k Hnd; simpl; [reflexivity|].
  unfold keys in Hnd. cbn [map fst] in Hnd. apply NoDup_cons in Hnd as [Hk0 Hl].
  fold (keys l) in Hk0, Hl.
  rewrite (IH _ _ Hl), obj_get_obj_set. simpl.
  destruct (text_eqb_spec k0 k) as [->|Hne]; [|reflexivity].
  apply obj_get_None in Hk0. rewrite Hk0. reflexivity.
Qed.

Lemma NoDup_fold l : forall acc,
  NoDup (keys acc) ->
  NoDup (keys (fold_left (fun a p => obj_set a (fst p) (snd p)) l acc)).
Proof.
  induction l as [|[k0 v0] l IH]; intros acc Hnd; simpl; [exact Hnd|].
  apply IH, NoDup_obj_set, Hnd.
Qed.

Lemma keys_normal_entries o : keys (map normal_entry o) = keys o.
Proof. unfold keys. rewrite map_map. reflexivity. Qed.

Lemma obj_get_normal_entries o k :
  obj_get (map normal_entry o) k = option_map normalize (obj_get o k).
Proof.
  induction o as [|[k0 v0] o IH]; simpl; [reflexivity|].
  destruct (text_eqb k0 k); [reflexivity | exact IH].
Qed.

(** What is read from an object after it went through a file. *)
Lemma obj_get_normalize o k :
  NoDup (keys o) ->
  exists o', normalize (JObj o) = JObj o'
             /\ obj_get o' k = option_map normalize (obj_get o k).
Proof.
  intros Hnd. eexists. split; [reflexivity|].
  unfold obj_of_entries. rewrite obj_get_fold by (rewrite keys_normal_entries; exact Hnd).
  rewrite obj_get_normal_entries. destruct (obj_get o k); reflexivity.
Qed.

(** *** A well ordered object is its own normal form *)

Lemma precedes_all_app k (a b : obj) :
  precedes_all k (a ++ b)%list = precedes_all k a && precedes_all k b.
Proof.
  induction a as [|[k' v'] a IH]; simpl; [reflexivity|].
  rewrite IH. now rewrite !andb_assoc.
Qed.

Lemma well_ordered_app (a b : obj) :
  well_ordered (a ++ b)%list = true ->
  well_ordered a = true /\ well_ordered b = true
  /\ Forall (fun p => precedes_all (fst p) b = true) a.
Proof.
  induction a as [|[k v] a IH]; simpl; intros H.
  - repeat split; [exact H | constructor].
  - apply andb_prop in H as [H1 H2]. rewrite precedes_all_app in H1.
    apply andb_prop in H1 as [H1 H1']. destruct (IH H2) as (Ha & Hb & Hf).
    rewrite H1, Ha. repeat split; [exact Hb | constructor; assumption].
Qed.

Lemma obj_set_snoc acc k v :
  Forall (fun p => precedes_all (fst p) [(k, v)] = true) acc ->
  obj_set acc k v = (acc ++ [(k, v)])%list.
Proof.
  intros Hf. assert (Hk : has_key acc k = false).
  { unfold has_key. induction Hf as [|[k' v'] acc Hp Hf IH]; simpl; [reflexivity|].
    simpl in Hp. destruct (text_eqb k' k); [discriminate | exact IH]. }
  unfold obj_set. rewrite Hk. clear Hk.
  induction Hf as [|[k' v'] acc Hp Hf IH]; simpl; [reflexivity|].
  simpl in Hp. destruct (may_precede k' k).
  - now rewrite IH.
  - rewrite andb_false_r in Hp. discriminate.
Qed.

Lemma fold_obj_set_ordered (l : obj) : forall acc : obj,
  well_ordered (acc ++ l)%list = true ->
  fold_left (fun a p => obj_set a (fst p) (snd p)) l acc = (acc ++ l)%list.
Proof.
  induction l as [|[k v] l IH]; intros acc H; simpl.
  - now rewrite app_nil_r.
  - rewrite obj_set_snoc.
    + rewrite IH; rewrite <- app_assoc; [reflexivity | exact H].
    + apply well_ordered_app in H as (_ & _ & Hf).
      eapply Forall_impl; [exact Hf|]. intros [k' v'] Hp. simpl in *.
      apply andb_prop in Hp as [Hp _]. now rewrite Hp.
Qed.

Theorem normalize_canonical v : canonical v = true -> normalize v = v.
Proof.
  induction v as [ | b | x | t | l IH | o IH] using json_nested_ind; intros Hc;
    try reflexivity.
  - simpl in *. f_equal. induction IH as [|e l He Hl IHl]; [reflexivity|].
    simpl in Hc. apply andb_prop in Hc as [Hc1 Hc2]. simpl. now rewrite He, IHl.
  - cbn [canonical normalize] in *. apply andb_prop in Hc as [Hw Hc]. f_equal.
    assert (Hm : map (fun p => (fst p, normalize (snd p))) o = o).
    { clear Hw. induction IH as [|[k v] o Hv Ho IHo]; [reflexivity|].
      simpl in Hc. apply andb_prop in Hc as [Hc1 Hc2]. simpl in *.
      now rewrite Hv, IHo. }
    rewrite Hm. unfold obj_of_entries. now apply (fold_obj_set_ordered o []).
Qed.

(** *** What the parser returns *)

Ltac split_match H :=
  repeat match type of H with
         | context [match ?x with _ => _ end] => destruct x eqn:?; try discriminate H
         end.

Lemma parse_members_NoDup fuel : forall acc s v rest,
  NoDup (keys acc) ->
  parse_members fuel acc s = Some (v, rest) ->
  exists o, v = JObj o /\ NoDup (keys o).
Proof.
  induction fuel as [|f IH]; intros acc s v rest Hnd H; [discriminate|].
  cbn [parse_members] in H. split_match H.
  - eapply IH; [|exact H]. apply NoDup_obj_set, Hnd.
  - injection H as <- <-. eexists; split; [reflexivity|]. apply NoDup_obj_set, Hnd.
Qed.

Lemma parse_elements_array fuel : forall acc s v rest,
  parse_elements fuel acc s = Some (v, rest) -> exists l, v = JArr l.
Proof.
  induction fuel as [|f IH]; intros acc s v rest H; [discriminate|].
  cbn [parse_elements] in H. split_match H.
  - eapply IH; exact H.
  - injection H as <- <-. eexists; reflexivity.
Qed.

Lemma parse_value_NoDup fuel s o rest :
  parse_value fuel s = Some (JObj o, rest) -> NoDup (keys o).
Proof.
  destruct fuel as [|f]; intros H; [discriminate|].
  cbn [parse_value] in H. unfold literal in H. split_match H;
    try (injection H as <- <-); try (apply NoDup_nil_2).
  - apply parse_members_NoDup in H as (o' & E & Hnd); [|apply NoDup_nil_2].
    injection E as <-. exact Hnd.
  - apply parse_elements_array in H as (elems & E). discriminate.
Qed.

Lemma parse_NoDup t o : parse t = Some (JObj o) -> NoDup (keys o).
Proof.
  unfold parse. intros H. split_match H. injection H as ->.
  eapply parse_value_NoDup; eassumption.
Qed.

(** *** Array indices are written in one way *)

Lemma digit_of_inj a b d : digit_of a = Some d -> digit_of b = Some d -> a = b.
Proof.
  unfold digit_of. intros Ha Hb.
  destruct ((48 <=? a)%N && (a <=? 57)%N) eqn:Ea; [|discriminate].
  destruct ((48 <=? b)%N && (b <=? 57)%N) eqn:Eb; [|discriminate].
  apply andb_prop in Ea as [Ea1 Ea2]. apply andb_prop in Eb as [Eb1 Eb2].
  apply N.leb_le in Ea1, Ea2, Eb1, Eb2.
  injection Ha as Ha. injection Hb as Hb. lia.
Qed.

Lemma digit_of_bound a d : digit_of a = Some d -> (d <= 9)%N.
Proof.
  unfold digit_of.
  destruct ((48 <=? a)%N && (a <=? 57)%N) eqn:Ea; [|discriminate].
  apply andb_prop in Ea as [Ea1 Ea2]. apply N.leb_le in Ea1, Ea2.
  intros H. injection H as <-. lia.
Qed.

Lemma digits_value_defined s : forall acc acc' v,
  digits_value acc s = Some v -> exists v', digits_value acc' s = Some v'.
Proof.
  induction s as [|a s IH]; intros acc acc' v H; cbn [digits_value] in *; [eauto|].
  destruct (digit_of a); [|discriminate]. eapply IH; exact H.
Qed.

(** The value of a run of digits behind an accumulator. *)
Lemma digits_value_acc s : forall acc v,
  digits_value acc s = Some v ->
  exists v0, digits_value 0 s = Some v0
             /\ v = (acc * 10 ^ N.of_nat (length s) + v0)%N
             /\ (v0 < 10 ^ N.of_nat (length s))%N.
Proof.
  induction s as [|a s IH]; intros acc v H.
  - simpl in H. injection H as <-. exists 0%N. simpl. repeat split; lia.
  - cbn [digits_value] in *. destruct (digit_of a) as [d|] eqn:Ed; [|discriminate].
    pose proof (digit_of_bound a d Ed) as Hd.
    destruct (IH _ _ H) as (w & Hw & -> & Hlt).
    destruct (digits_value_defined s _ (10 * 0 + d)%N _ H) as (v0 & Hv0).
    destruct (IH _ _ Hv0) as (w' & Hw' & -> & _).
    rewrite Hw in Hw'. injection Hw' as <-.
    eexists. split; [exact Hv0|].
    cbn [length]. rewrite Nat2N.inj_succ, N.pow_succ_r'. split; nia.
Qed.

Lemma digits_value_same_length s1 : forall s2 v,
  length s1 = length s2 ->
  digits_value 0 s1 = Some v -> digits_value 0 s2 = Some v -> s1 = s2.
Proof.
  induction s1 as [|a s1 IH]; intros [|b s2] v Hlen H1 H2; try discriminate; [reflexivity|].
  cbn [digits_value] in H1, H2.
  destruct (digit_of a) as [d1|] eqn:E1; [|discriminate].
  destruct (digit_of b) as [d2|] eqn:E2; [|discriminate].
  destruct (digits_value_acc _ _ _ H1) as (v1 & Hv1 & -> & Hlt1).
  destruct (digits_value_acc _ _ _ H2) as (v2 & Hv2 & Heq & Hlt2).
  injection Hlen as Hlen. rewrite <- Hlen in Heq, Hlt2.
  pose proof (digit_of_bound _ _ E1). pose proof (digit_of_bound _ _ E2).
  set (p := (10 ^ N.of_nat (length s1))%N) in *.
  assert (d1 = d2 /\ v1 = v2) as [-> ->].
  { apply (N.div_mod_unique p); [exact Hlt1 | exact Hlt2 | lia]. }
  f_equal; [eapply digit_of_inj; eassumption | eapply IH; eassumption].
Qed.

(** A run of digits that does not start with a zero is as long as its
    value has digits. *)
Lemma digits_value_bounds a s v :
  digits_value 0 (a :: s) = Some v -> a <> code "0" ->
  (10 ^ N.of_nat (length s) <= v < 10 ^ N.of_nat (S (length s)))%N.
Proof.
  cbn [digits_value]. intros H Ha.
  destruct (digit_of a) as [d|] eqn:Ed; [|discriminate].
  destruct (digits_value_acc _ _ _ H) as (v0 & _ & -> & Hlt).
  pose proof (digit_of_bound _ _ Ed) as Hd.
  assert (d <> 0)%N.
  { intros ->. apply Ha. eapply digit_of_inj; [exact Ed | reflexivity]. }
  rewrite Nat2N.inj_succ, N.pow_succ_r'. nia.
Qed.

Lemma array_index_cases k n :
  array_index k = Some n ->
  (k = wide "0" /\ n = 0%N)
  \/ exists a s, k = a :: s /\ a <> code "0" /\ digits_value 0 k = Some n.
Proof.
  destruct k as [|a s]; [discriminate|]. unfold array_index.
  destruct (N.eqb_spec a (code "0")) as [->|Hne].
  - destruct s; [intros H; injection H as <-; left; split; reflexivity | discriminate].
  - intros H. right. exists a, s. repeat split; [exact Hne|].
    destruct (10 <? length (a :: s))%nat; [discriminate|].
    destruct (digits_value 0 (a :: s)) as [m|]; [|discriminate].
    destruct (m <=? 4294967294)%N; [congruence | discriminate].
Qed.

Lemma array_index_inj (k1 k2 : text) n :
  array_index k1 = Some n -> array_index k2 = Some n -> k1 = k2.
Proof.
  intros H1 H2.
  destruct (array_index_cases _ _ H1) as [[-> ->] | (a1 & s1 & -> & Ha1 & Hv1)];
    destruct (array_index_cases _ _ H2) as [[-> E] | (a2 & s2 & -> & Ha2 & Hv2)]; subst.
  - reflexivity.
  - pose proof (digits_value_bounds _ _ _ Hv2 Ha2) as [Hb _].
    assert (0 < 10 ^ N.of_nat (length s2))%N by (apply N.neq_0_lt_0, N.pow_nonzero; lia). lia.
  - pose proof (digits_value_bounds _ _ _ Hv1 Ha1) as [Hb _].
    assert (0 < 10 ^ N.of_nat (length s1))%N by (apply N.neq_0_lt_0, N.pow_nonzero; lia). lia.
  - pose proof (digits_value_bounds _ _ _ Hv1 Ha1) as [Hl1 Hu1].
    pose proof (digits_value_bounds _ _ _ Hv2 Ha2) as [Hl2 Hu2].
    assert (Hlen : length s1 = length s2).
    { assert (N.of_nat (length s1) < N.of_nat (S (length s2)))%N
        by (apply (N.pow_lt_mono_r_iff 10); lia).
      assert (N.of_nat (length s2) < N.of_nat (S (length s1)))%N
        by (apply (N.pow_lt_mono_r_iff 10); lia).
      lia. }
    eapply digits_value_same_length; [simpl; congruence | eassumption | eassumption].
Qed.

(** *** Assignment keeps an object well ordered *)

Lemma may_precede_flip k k' :
  may_precede k' k = false -> k <> k' -> may_precede k k' = true.
Proof.
  unfold may_precede. intros H Hne.
  destruct (array_index k') as [a|] eqn:Ea, (array_index k) as [b|] eqn:Eb;
    try discriminate; try reflexivity.
  apply N.ltb_ge in H. apply N.ltb_lt.
  assert (a <> b) by (intros ->; apply Hne; eapply array_index_inj; eassumption). lia.
Qed.

Lemma may_precede_before k k' k'' :
  may_precede k' k = false -> k <> k' ->
  may_precede k' k'' = true -> may_precede k k'' = true.
Proof.
  unfold may_precede. intros H Hne H'.
  destruct (array_index k') as [a|] eqn:Ea, (array_index k) as [b|] eqn:Eb,
           (array_index k'') as [c|] eqn:Ec; try discriminate; try reflexivity.
  apply N.ltb_ge in H. apply N.ltb_lt in H'. apply N.ltb_lt. lia.
Qed.

Lemma precedes_all_has_key k o : precedes_all k o = true -> has_key o k = false.
Proof.
  unfold has_key. induction o as [|[k' v'] o IH]; simpl; [reflexivity|].
  intros H. apply andb_prop in H as [H1 H2]. apply andb_prop in H1 as [H1 _].
  rewrite text_eqb_sym. destruct (text_eqb k k'); [discriminate | exact (IH H2)].
Qed.

Lemma precedes_all_insert_new k' o k v :
  precedes_all k' (insert_new o k v)
  = precedes_all k' o && (negb (text_eqb k' k) && may_precede k' k).
Proof.
  induction o as [|[k0 v0] o IH]; simpl.
  - now rewrite andb_true_r.
  - destruct (may_precede k0 k); simpl.
    + rewrite IH. now rewrite !andb_assoc.
    + destruct (negb (text_eqb k' k)), (may_precede k' k), (negb (text_eqb k' k0)),
        (may_precede k' k0), (precedes_all k' o); reflexivity.
Qed.

Lemma well_ordered_insert_new o k v :
  well_ordered o = true -> has_key o k = false -> well_ordered (insert_new o k v) = true.
Proof.
  induction o as [|[k' v'] o IH]; simpl; intros Hw Hk; [reflexivity|].
  apply andb_prop in Hw as [Hp Hw].
  unfold has_key in Hk. simpl in Hk.
  destruct (text_eqb_spec k' k) as [->|Hne]; [discriminate|].
  fold (has_key o k) in Hk.
  destruct (may_precede k' k) eqn:Hm; simpl.
  - rewrite precedes_all_insert_new, Hp, Hm, (IH Hw Hk).
    destruct (text_eqb_spec k' k); [congruence | reflexivity].
  - rewrite Hp, Hw, (may_precede_flip k k' Hm) by congruence.
    destruct (text_eqb_spec k k'); [congruence|]. simpl. rewrite !andb_true_r.
    clear IH Hw. induction o as [|[k'' v''] o IHo]; simpl; [reflexivity|].
    simpl in Hp. apply andb_prop in Hp as [Hp1 Hp2]. apply andb_prop in Hp1 as [_ Hp1].
    unfold has_key in Hk. simpl in Hk.
    destruct (text_eqb_spec k'' k) as [->|Hne']; [discriminate|].
    fold (has_key o k) in Hk.
    rewrite (may_precede_before k k' k'' Hm) by (congruence || assumption).
    destruct (text_eqb_spec k k''); [congruence|]. simpl. now apply IHo.
Qed.

Lemma precedes_all_replace_value k' o k v :
  precedes_all k' (replace_value o k v) = precedes_all k' o.
Proof.
  induction o as [|[k0 v0] o IH]; simpl; [reflexivity|].
  destruct (text_eqb k0 k); simpl; [reflexivity | now rewrite IH].
Qed.

Lemma well_ordered_replace_value o k v :
  well_ordered (replace_value o k v) = well_ordered o.
Proof.
  induction o as [|[k0 v0] o IH]; simpl; [reflexivity|].
  destruct (text_eqb k0 k); simpl; [reflexivity|].
  now rewrite precedes_all_replace_value, IH.
Qed.

Lemma well_ordered_obj_set o k v :
  well_ordered o = true -> well_ordered (obj_set o k v) = true.
Proof.
  intros Hw. unfold obj_set. destruct (has_key o k) eqn:Hk.
  - now rewrite well_ordered_replace_value.
  - now apply well_ordered_insert_new.
Qed.

(** A property of the values of an object survives an assignment of a
    value that has it. *)
Lemma forallb_obj_set (P : json -> bool) o k v :
  forallb (fun p => P (snd p)) o = true -> P v = true ->
  forallb (fun p => P (snd p)) (obj_set o k v) = true.
Proof.
  intros Ho Hv. unfold obj_set. destruct (has_key o k).
  - induction o as [|[k' v'] o IH]; simpl in *; [reflexivity|].
    apply andb_prop in Ho as [H1 H2].
    destruct (text_eqb k' k); simpl; [now rewrite Hv | now rewrite H1, IH].
  - induction o as [|[k' v'] o IH]; simpl in *; [now rewrite Hv|].
    apply andb_prop in Ho as [H1 H2].
    destruct (may_precede k' k); simpl; [now rewrite H1, IH | now rewrite Hv, H1, H2].
Qed.

Lemma canonical_obj_set o k v :
  canonical (JObj o) = true -> canonical v = true -> canonical (JObj (obj_set o k v)) = true.
Proof.
  cbn [canonical]. intros Ho Hv. apply andb_prop in Ho as [Hw Hc].
  rewrite well_ordered_obj_set by exact Hw. now apply forallb_obj_set.
Qed.

(** *** The parser returns canonical values *)

Lemma parse_canonical_fuel fuel :
  (forall s v rest, parse_value fuel s = Some (v, rest) -> canonical v = true)
  /\ (forall acc s v rest, canonical (JObj acc) = true ->
        parse_members fuel acc s = Some (v, rest) -> canonical v = true)
  /\ (forall acc s v rest, canonical (JArr acc) = true ->
        parse_elements fuel acc s = Some (v, rest) -> canonical v = true).
Proof.
  induction fuel as [|f (IHv & IHm & IHe)].
  - repeat split; intros; discriminate.
  - repeat split.
    + intros s v rest H. cbn [parse_value] in H. unfold literal in H. split_match H;
        try (injection H as <- <-; reflexivity).
      * eapply IHm; [|exact H]. reflexivity.
      * eapply IHe; [|exact H]. reflexivity.
    + intros acc s v rest Hacc H. cbn [parse_members] in H. split_match H.
      * eapply IHm; [|exact H]. apply canonical_obj_set; [exact Hacc | eapply IHv; eassumption].
      * injection H as <- <-. apply canonical_obj_set; [exact Hacc | eapply IHv; eassumption].
    + intros acc s v rest Hacc H. cbn [parse_elements] in H. split_match H.
      * eapply IHe; [|exact H]. cbn [canonical] in *. rewrite forallb_app, Hacc.
        simpl. erewrite IHv by eassumption. reflexivity.
      * injection H as <- <-. cbn [canonical] in *. rewrite forallb_app, Hacc.
        simpl. erewrite IHv by eassumption. reflexivity.
Qed.

(** Whatever [JSON.parse] returns is canonical: its objects are in
    enumeration order and without repeated names. *)
Theorem parse_canonical t v : parse t = Some v -> canonical v = true.
Proof.
  unfold parse. intros H. split_match H. injection H as ->.
  eapply (proj1 (parse_canonical_fuel _)); eassumption.
Qed.

(** *** Texts around a colon *)

(** Two texts without a colon, each followed by a colon and more text:
    if the wholes agree, so do the parts. *)
Lemma app_colon_inj a1 : forall a2 x y,
  Config.count_unit ":" a1 = O -> Config.count_unit ":" a2 = O ->
  (a1 ++ ":" ++ x = a2 ++ ":" ++ y)%string -> a1 = a2 /\ x = y.
Proof.
  induction a1 as [|c a1 IH]; intros [|d a2] x y H1 H2 H; simpl in *.
  - injection H as ->. auto.
  - injection H as <- _. discriminate.
  - injection H as -> _. discriminate.
  - injection H as -> H.
    destruct (Ascii.eqb d ":"); [discriminate|].
    destruct (IH a2 x y H1 H2 H) as [-> ->]. auto.
Qed.

Lemma text_colon_inj (a1 : text) : forall (a2 x y : text),
  count_code (code ":") a1 = O -> count_code (code ":") a2 = O ->
  a1 ++ wide ":" ++ x = a2 ++ wide ":" ++ y -> a1 = a2 /\ x = y.
Proof.
  induction a1 as [|c a1 IH]; intros [|d a2] x y H1 H2 H; cbn [count_code app wide] in *.
  - injection H as ->. auto.
  - injection H as Hd _. rewrite <- Hd, N.eqb_refl in H2. discriminate.
  - injection H as Hc _. rewrite Hc, N.eqb_refl in H1. discriminate.
  - injection H as -> H.
    destruct (d =? code ":")%N; [discriminate|].
    destruct (IH a2 x y H1 H2 H) as [-> ->]. auto.
Qed.

(** *** Records of strings *)











End JsonFacts.
(** ** The subscription manager *)

Section ManagerFacts.
Import JsString EventSub.
#[local] Open Scope list_scope.

Variable Date_getTime : option json -> option Z.

Abbreviation ensure := (ensureSubscription Date_getTime).

Lemma loadState_run w : loadState w = (Ok (stored (file w)), w).
Proof.
  unfold loadState, try_catch, bind, readFile, stored.
  destruct (file w) as [ | | t]; try reflexivity.
  destruct (parse t); reflexivity.
Qed.


Lemma string_tree_strings_obj c : string_tree (JObj (strings_obj c)) = true.
Proof. simpl. induction c as [|[k v] c IH]; simpl; [reflexivity | exact IH]. Qed.

Lemma strings_obj_inj c1 c2 : strings_obj c1 = strings_obj c2 -> c1 = c2.
Proof.
  revert c2. induction c1 as [|[k v] c1 IH]; intros [|[k' v'] c2] H; try discriminate.
  - reflexivity.
  - simpl in H. injection H as -> -> H. f_equal. now apply IH.
Qed.

Lemma strings_are_canonical c :
  forallb (fun p => canonical (snd p)) (strings_obj c) = true.
Proof. induction c as [|[k v] c IH]; simpl; [reflexivity | exact IH]. Qed.

Lemma canonical_strings_obj c :
  well_ordered (strings_obj c) = true -> canonical (JObj (strings_obj c)) = true.
Proof. intros H. cbn [canonical]. now rewrite H, strings_are_canonical. Qed.

(** Running [ensureSubscription] on a world, path by path. *)
Ltac run_ensure w :=
  unfold ensureSubscription, bind; rewrite (loadState_run w);
  unfold get_member, set_member, createEventSubSubscription, saveState, writeFile,
    log_line, scheduleRenewal, setTimeout, Date_now, bind, ret, throw;
  cbn [file writable torn clock ticks api requests writes timers log].


(** A call that sent a request and returned has written the record. *)
Lemma ensure_created w type c cb s w1 :
  ensure type c cb s w = (Ok tt, w1) ->
  requests w1 <> requests w ->
  exists d ds,
    api w (length (requests w)) (request_of type c cb s) = ApiOk (d :: ds)
    /\ requests w1 = (requests w ++ [request_of type c cb s])%list
    /\ match stored (file w) with
       | JObj o =>
           file w1 = Contents (stringify2 (JObj (obj_set o (makeKey type c) (record_of d type c))))
       | JArr l => file w1 = Contents (stringify2 (JArr l))
       | JNull | JBool _ | JNum _ | JStr _ => False
       end.
Proof.
  run_ensure w. intros H Hreq.
  destruct (stored (file w)) as [ | b | x | t | l | o] eqn:Hs;
    repeat match type of H with
      | context [if ?x then _ else _] => destruct x eqn:?
      | context [match api ?x1 ?x2 ?x3 with _ => _ end] =>
          destruct (api x1 x2 x3) as [r|[|d ds]] eqn:?
      | context [match Date_getTime ?a with _ => _ end] => destruct (Date_getTime a) eqn:?
      | context [match torn ?x with _ => _ end] => destruct (torn x) eqn:?
      end;
    try discriminate H; injection H as <-; cbn in Hreq |- *; try congruence;
    exists d, ds; auto.
Qed.

Lemma string_tree_obj_set o k v :
  forallb (fun p => string_tree (snd p)) o = true ->
  string_tree v = true ->
  forallb (fun p => string_tree (snd p)) (obj_set o k v) = true.
Proof.
  intros Ho Hv. unfold obj_set. destruct (has_key o k).
  - induction o as [|[k' v'] o IH]; simpl in *; [reflexivity|].
    apply andb_prop in Ho as [H1 H2].
    destruct (text_eqb k' k); simpl; [now rewrite Hv | now rewrite H1, IH].
  - induction o as [|[k' v'] o IH]; simpl in *; [now rewrite Hv|].
    apply andb_prop in Ho as [H1 H2].
    destruct (may_precede k' k); simpl; [now rewrite H1, IH | now rewrite Hv, H1, H2].
Qed.

Lemma string_tree_record_of d type c : string_tree (record_of d type c) = true.
Proof.
  unfold record_of. cbn [string_tree forallb snd].
  change (forallb _ (strings_obj c)) with (string_tree (JObj (strings_obj c))).
  now rewrite string_tree_strings_obj.
Qed.









(** Where a call that sent a request stops when no descriptor comes
    back. *)
Lemma ensure_not_created w type c cb s r w1 :
  match api w (length (requests w)) (request_of type c cb s) with
  | ApiOk (_ :: _) => False
  | _ => True
  end ->
  ensure type c cb s w = (r, w1) ->
  requests w1 <> requests w ->
  r = Err (match api w (length (requests w)) (request_of type c cb s) with
           | ApiFail reason => RemoteError reason
           | ApiOk _ => TypeError
           end)
  /\ requests w1 = (requests w ++ [request_of type c cb s])%list
  /\ file w1 = file w /\ writes w1 = writes w /\ timers w1 = timers w.
Proof.
  run_ensure w. intros Hapi H Hreq.
  destruct (stored (file w)) as [ | b | x | t | l | o];
    repeat match type of H with
      | context [if ?x then _ else _] => destruct x eqn:?
      | context [match api ?x1 ?x2 ?x3 with _ => _ end] =>
          let Ha := fresh "Ha" in
          destruct (api x1 x2 x3) as [reason|[|d ds]] eqn:Ha;
          change (api x1 x2 x3) with (api w (length (requests w)) (request_of type c cb s)) in Ha;
          rewrite Ha in Hapi; try rewrite Ha
      | context [match Date_getTime ?a with _ => _ end] => destruct (Date_getTime a) eqn:?
      end;
    try destruct Hapi;
    injection H as <- <-; cbn in Hreq |- *; try congruence; auto.
Qed.

(** C5: when the creation request of a call fails, the call fails with the
    error of the Remote Event API; it has sent that one request, the state
    file is as it was, nothing was written and no renewal is armed. *)
Theorem ensureSubscription_remote_failure w type c cb s reason r w1 :
  api w (length (requests w)) (request_of type c cb s) = ApiFail reason ->
  ensure type c cb s w = (r, w1) ->
  requests w1 <> requests w ->
  r = Err (RemoteError reason)
  /\ requests w1 = (requests w ++ [request_of type c cb s])%list
  /\ file w1 = file w /\ writes w1 = writes w /\ timers w1 = timers w.
Proof.
  intros Hapi Hrun Hreq.
  pose proof (ensure_not_created w type c cb s r w1) as H.
  rewrite Hapi in H. now apply H.
Qed.

(** C10: when the Remote Event API answers a creation request with an
    empty list of descriptors, the call fails with a TypeError; the state
    file is as it was and nothing was written. *)
Theorem ensureSubscription_no_descriptor w type c cb s r w1 :
  api w (length (requests w)) (request_of type c cb s) = ApiOk [] ->
  ensure type c cb s w = (r, w1) ->
  requests w1 <> requests w ->
  r = Err TypeError
  /\ requests w1 = (requests w ++ [request_of type c cb s])%list
  /\ file w1 = file w /\ writes w1 = writes w /\ timers w1 = timers w.
Proof.
  intros Hapi Hrun Hreq.
  pose proof (ensure_not_created w type c cb s r w1) as H.
  rewrite Hapi in H. now apply H.
Qed.

(** C6, amended: [loadState] returns in every state of the file and
    leaves the world as it is. It returns the empty mapping when the
    file is missing or cannot be read or parsed, and otherwise the
    parsed document as it is, whether that is a mapping or not; so it
    returns the mapping that [saveState] wrote last. *)
Theorem loadState_never_raises w :
  exists v, loadState w = (Ok v, w)
    /\ (file w = Missing \/ file w = Unreadable -> v = JObj [])
    /\ (forall t, file w = Contents t -> parse t = None -> v = JObj [])
    /\ (forall t d, file w = Contents t -> parse t = Some d -> v = d)
    /\ (forall w0 st, saveState st w0 = (Ok tt, w) ->
          string_tree st = true -> canonical st = true -> v = st).
Proof.
  exists (stored (file w)). split; [apply loadState_run|]. unfold stored.
  repeat split.
  - intros [-> | ->]; reflexivity.
  - intros t -> ->. reflexivity.
  - intros t d -> ->. reflexivity.
  - intros w0 st Hsave Hst Hc. unfold saveState, writeFile in Hsave.
    destruct (writable w0); [|destruct (torn w0); discriminate]. injection Hsave as <-. cbn [file].
    unfold stringify2. rewrite parse_serialize by exact Hst.
    now apply normalize_canonical.
Qed.


(** ** More about the manager *)

(** The cases of a run of [ensureSubscription]. *)
Ltac ensure_cases :=
  repeat match goal with
    | |- context [match stored ?m with _ => _ end] => destruct (stored m) eqn:?
    | |- context [match obj_get ?o ?k with _ => _ end] => destruct (obj_get o k) as [[]|] eqn:?
    | |- context [match Date_getTime ?a with _ => _ end] => destruct (Date_getTime a) eqn:?
    | |- context [match api ?x1 ?x2 ?x3 with _ => _ end] =>
        destruct (api x1 x2 x3) as [?|[|? ?]] eqn:?
    | |- context [match torn ?x with _ => _ end] => destruct (torn x) eqn:?
    | |- context [if ?x then _ else _] =>
        lazymatch x with
        | fst _ => fail
        | _ => destruct x eqn:?
        end
    end.

(** The paths of a run of [ensureSubscription], as far as the requests
    and the writes go. *)
Ltac ensure_paths :=
  repeat match goal with
    | |- context [match stored ?m with _ => _ end] => destruct (stored m) eqn:?
    | |- context [match api ?x1 ?x2 ?x3 with _ => _ end] =>
        destruct (api x1 x2 x3) as [?|[|? ?]] eqn:?
    | |- context [match torn ?x with _ => _ end] => destruct (torn x) eqn:?
    | |- context [if ?x then _ else _] =>
        lazymatch x with
        | fst _ => fail
        | _ => destruct x eqn:?
        end
    end.


(** X10: what one call can do to the outside. It sends no request and
    writes nothing; or it sends its one request and fails, with the
    state file as it was unless the failure is that of a write that had
    opened the file, which leaves what was written of the text; or it
    sends its one request, writes the state file once and returns. It
    never writes without a request, never twice, and never fails after
    a write that succeeded. *)
Theorem ensureSubscription_effects w type c cb s :
  let r := fst (ensure type c cb s w) in
  let w1 := snd (ensure type c cb s w) in
  (requests w1 = requests w /\ writes w1 = writes w /\ file w1 = file w)
  \/ (requests w1 = (requests w ++ [request_of type c cb s])%list
      /\ writes w1 = writes w /\ (exists e, r = Err e)
      /\ (file w1 = file w
          \/ (r = Err IoError /\ writable w = false
              /\ exists rest, torn w = Some rest /\ file w1 = Contents rest)))
  \/ (requests w1 = (requests w ++ [request_of type c cb s])%list
      /\ r = Ok tt /\ writable w = true
      /\ exists t, writes w1 = (writes w ++ [t])%list /\ file w1 = Contents t).
Proof.
  cbv zeta. run_ensure w. ensure_paths;
    cbn [fst snd file writable torn requests writes];
    first
      [ left; repeat split; reflexivity
      | right; right; split; [reflexivity|]; split; [reflexivity|]; split; [assumption|];
        eexists; split; reflexivity
      | right; left; split; [reflexivity|]; split; [reflexivity|];
        split; [eexists; reflexivity|];
        first [ left; reflexivity
              | right; split; [reflexivity|]; split; [assumption|];
                eexists; split; [eassumption | reflexivity] ] ].
Qed.


(** A call that fails leaves the timers and the log as they were. *)
Lemma ensure_failure_quiet w type c cb s e :
  fst (ensure type c cb s w) = Err e ->
  timers (snd (ensure type c cb s w)) = timers w
  /\ log (snd (ensure type c cb s w)) = log w.
Proof.
  run_ensure w. unfold is_fresh. ensure_cases; cbn; intros H; try discriminate H; auto.
Qed.

(** X12: a renewal timer that fires never fails. When the call it repeats
    fails, one line is logged and no renewal is armed: the subscription is
    not renewed again until someone calls [ensureSubscription]. When the
    call returns, the timer has done what the call does. *)
Theorem fire_never_raises t w :
  let run := ensure (t_type t) (t_condition t) (t_callback t) (t_secret t) w in
  fst (fire Date_getTime t w) = Ok tt
  /\ match fst run with
     | Ok _ => snd (fire Date_getTime t w) = snd run
     | Err _ =>
         timers (snd (fire Date_getTime t w)) = timers w
         /\ log (snd (fire Date_getTime t w))
            = (log w ++ ["Failed to renew EventSub subscription"])%list
     end.
Proof.
  cbv zeta. unfold fire, try_catch.
  pose proof (ensure_failure_quiet w (t_type t) (t_condition t) (t_callback t) (t_secret t)) as Hq.
  destruct (ensure (t_type t) (t_condition t) (t_callback t) (t_secret t) w) as [[[]|e] w1].
  - split; reflexivity.
  - destruct (Hq e eq_refl) as [Ht Hl]. cbn in *. rewrite Ht, Hl. auto.
Qed.

(** X13: the lead time is exclusive. Whenever the store is a mapping and
    the record under the key, if there is one with a readable expiry, has
    60 seconds or less to live, the call sends a creation request. *)
Theorem ensureSubscription_renews_within_lead_time w type c cb s o :
  stored (file w) = JObj o ->
  (forall e t, obj_get o (makeKey type c) = Some (JObj e) ->
               Date_getTime (obj_get e (wide "expires_at")) = Some t ->
               t - clock w (ticks w) <= 60 * 1000) ->
  requests (snd (ensure type c cb s w)) = (requests w ++ [request_of type c cb s])%list.
Proof.
  intros Hs Hold.
  assert (Hf : is_fresh Date_getTime (obj_get o (makeKey type c)) (clock w (ticks w)) = false).
  { unfold is_fresh. destruct (obj_get o (makeKey type c)) as [[ | | | | |e]|]; try reflexivity.
    destruct (Date_getTime (obj_get e (wide "expires_at"))) as [t|] eqn:Ht; [|reflexivity].
    specialize (Hold e t eq_refl Ht). apply Z.ltb_ge. lia. }
  run_ensure w. rewrite Hs, Hf. ensure_cases; reflexivity.
Qed.

(** X14: a state file that holds [null] is read without an error, and then
    every call fails with a TypeError before anything else happens: the
    world is as it was. *)
Theorem ensureSubscription_null_store w type c cb s :
  stored (file w) = JNull ->
  loadState w = (Ok JNull, w) /\ ensure type c cb s w = (Err TypeError, w).
Proof.
  intros Hs. split; [now rewrite loadState_run, Hs|].
  run_ensure w. rewrite Hs. reflexivity.
Qed.

(** X15: when the write of the state file fails, the call fails with
    that error after its request was answered: the subscription exists
    at the Remote Event API and the state file does not hold it. The
    file is as it was when it could not be opened, and holds what was
    written of the text otherwise. The manager logs nothing and arms no
    renewal. *)
Theorem ensureSubscription_write_refused w type c cb s o d ds :
  writable w = false ->
  stored (file w) = JObj o ->
  api w (length (requests w)) (request_of type c cb s) = ApiOk (d :: ds) ->
  requests (snd (ensure type c cb s w)) <> requests w ->
  fst (ensure type c cb s w) = Err IoError
  /\ requests (snd (ensure type c cb s w)) = (requests w ++ [request_of type c cb s])%list
  /\ file (snd (ensure type c cb s w))
     = match torn w with
       | None => file w
       | Some rest => Contents rest
       end
  /\ writes (snd (ensure type c cb s w)) = writes w
  /\ timers (snd (ensure type c cb s w)) = timers w
  /\ log (snd (ensure type c cb s w)) = log w.
Proof.
  intros Hw Hs Hapi. run_ensure w. rewrite Hs, Hw.
  destruct (is_fresh Date_getTime (obj_get o (makeKey type c)) (clock w (ticks w))).
  - cbn. intros H. congruence.
  - cbn [api requests]. rewrite Hapi. cbn. destruct (torn w); cbn; auto 7.
Qed.

(** X16: the key tells subscriptions apart. For types without a colon and
    conditions in enumeration order, two keys are the same only for the
    same type and the same condition. *)
Theorem makeKey_injective t1 t2 c1 c2 :
  count_code (code ":") t1 = O -> count_code (code ":") t2 = O ->
  well_ordered (strings_obj c1) = true -> well_ordered (strings_obj c2) = true ->
  makeKey t1 c1 = makeKey t2 c2 -> t1 = t2 /\ c1 = c2.
Proof.
  intros Ht1 Ht2 Hc1 Hc2 H. unfold makeKey in H.
  destruct (text_colon_inj t1 t2 _ _ Ht1 Ht2 H) as [-> Hj]. split; [reflexivity|].
  apply strings_obj_inj.
  assert (Hp : parse (stringify (JObj (strings_obj c1)))
               = parse (stringify (JObj (strings_obj c2)))) by now rewrite Hj.
  unfold stringify in Hp.
  rewrite !parse_serialize in Hp by apply string_tree_strings_obj.
  rewrite !normalize_canonical in Hp by now apply canonical_strings_obj.
  now injection Hp.
Qed.

(** What [loadState] returns is canonical and, for an object, without
    repeated names. *)
Lemma stored_canonical m : canonical (stored m) = true.
Proof.
  unfold stored. destruct m as [ | | t]; try reflexivity.
  destruct (parse t) as [v|] eqn:Hp; [|reflexivity]. eapply parse_canonical; eassumption.
Qed.

Lemma stored_NoDup m o : stored m = JObj o -> NoDup (keys o).
Proof.
  unfold stored. destruct m as [ | | t]; try (intros H; injection H as <-; constructor).
  destruct (parse t) as [v|] eqn:Hp; [|intros H; injection H as <-; constructor].
  intros ->. eapply parse_NoDup; eassumption.
Qed.

Lemma canonical_obj_get o k v :
  canonical (JObj o) = true -> obj_get o k = Some v -> canonical v = true.
Proof.
  cbn [canonical]. intros H Hg. apply andb_prop in H as [_ H].
  induction o as [|[k' v'] o IH]; [discriminate|].
  simpl in *. apply andb_prop in H as [H1 H2].
  destruct (text_eqb k' k); [congruence | now apply IH].
Qed.

(** X17: the load, save and load again of any state file of the declared
    type gives the mapping of the first load: saving what was read changes
    nothing that a later read can see. *)
Theorem load_save_load w :
  string_tree (stored (file w)) = true ->
  writable w = true ->
  fst (loadState (snd (saveState (stored (file w)) w))) = Ok (stored (file w)).
Proof.
  intros Hst Hw. rewrite loadState_run. cbn [fst]. f_equal.
  unfold saveState, writeFile. rewrite Hw. cbn [snd file].
  unfold stored at 1, stringify2. rewrite parse_serialize by exact Hst.
  apply normalize_canonical, stored_canonical.
Qed.

(** A call changes the state file only when it sends a request. *)
Lemma ensure_file_or_request w type c cb s :
  file (snd (ensure type c cb s w)) = file w
  \/ requests (snd (ensure type c cb s w)) <> requests w.
Proof.
  run_ensure w. unfold is_fresh. ensure_cases; cbn; try (left; reflexivity);
    right; intros H; apply (f_equal (@length _)) in H; rewrite length_app in H;
    simpl in H; lia.
Qed.

(** X18: a call that returns leaves the records of all other keys as they
    were: in a store of the declared type, what the state file holds
    under any key but the key of the call is the same before and after. *)
Theorem ensureSubscription_keeps_other_records w type c cb s k :
  string_tree (stored (file w)) = true ->
  fst (ensure type c cb s w) = Ok tt ->
  k <> makeKey type c ->
  Runs.store_get (file (snd (ensure type c cb s w))) k = Runs.store_get (file w) k.
Proof.
  intros Hst Hok Hk.
  destruct (ensure_file_or_request w type c cb s) as [Hf | Hreq]; [now rewrite Hf|].
  destruct (ensure type c cb s w) as [r w1] eqn:Hrun. cbn [fst snd] in *. subst r.
  destruct (ensure_created w type c cb s w1 Hrun Hreq) as (d & ds & _ & _ & Hfile).
  unfold Runs.store_get.
  destruct (stored (file w)) as [ | b | x | t | l | o] eqn:Hs; try discriminate Hst;
    try (destruct Hfile; fail).
  pose proof (stored_NoDup _ _ Hs) as Hnd.
  pose proof (stored_canonical (file w)) as Hc. rewrite Hs in Hc.
  set (o' := obj_set o (makeKey type c) (record_of d type c)) in *.
  assert (Hst' : string_tree (JObj o') = true).
  { cbn [string_tree]. apply string_tree_obj_set; [exact Hst | apply string_tree_record_of]. }
  destruct (obj_get_normalize o' k) as (o1 & Hn & Hg); [apply NoDup_obj_set, Hnd|].
  rewrite Hfile. unfold stored, stringify2. rewrite (parse_serialize _ 2 0 Hst'), Hn, Hg.
  unfold o'. rewrite obj_get_obj_set.
  destruct (text_eqb_spec (makeKey type c) k) as [E|_]; [congruence|].
  destruct (obj_get o k) as [v|] eqn:Hv; [|reflexivity].
  cbn. f_equal. apply normalize_canonical. eapply canonical_obj_get; eassumption.
Qed.

(** A call on a fresh record: the world it leaves. *)
Lemma ensure_fresh_world w type c cb s o e t :
  stored (file w) = JObj o ->
  obj_get o (makeKey type c) = Some (JObj e) ->
  Date_getTime (obj_get e (wide "expires_at")) = Some t ->
  60 * 1000 < t - clock w (ticks w) ->
  exists w', ensure type c cb s w = (Ok tt, w')
    /\ file w' = file w /\ clock w' = clock w /\ ticks w' = S (S (ticks w))
    /\ requests w' = requests w /\ writes w' = writes w
    /\ length (timers w') = S (length (timers w)).
Proof.
  intros Hs Hk Ht Hf. run_ensure w. rewrite Hs, Hk. cbn [is_fresh]. rewrite Ht.
  destruct (Z.ltb_spec (60 * 1000) (t - clock w (ticks w))) as [_|]; [|lia].
  eexists. split; [reflexivity|]. cbn. rewrite length_app. simpl.
  repeat split; lia.
Qed.

(** X19: while the record under the key stays fresh, calls can be repeated
    at will: [n] calls in a row on a record that expires more than 60
    seconds after every reading of the clock all return, send no request,
    write nothing, and arm [n] renewals. *)
Theorem ensureSubscription_repeated type c cb s o e t n : forall w,
  stored (file w) = JObj o ->
  obj_get o (makeKey type c) = Some (JObj e) ->
  Date_getTime (obj_get e (wide "expires_at")) = Some t ->
  (forall k, 60 * 1000 < t - clock w k) ->
  exists wn, Runs.ensure_times Date_getTime n type c cb s w = (Ok tt, wn)
    /\ requests wn = requests w /\ writes wn = writes w /\ file wn = file w
    /\ length (timers wn) = (length (timers w) + n)%nat.
Proof.
  induction n as [|n IH]; intros w Hs Hk Ht Hf.
  - exists w. cbn. repeat split; lia.
  - destruct (ensure_fresh_world w type c cb s o e t Hs Hk Ht (Hf _))
      as (w1 & Hrun & Hfile & Hclock & _ & Hreq & Hwr & Htim).
    destruct (IH w1) as (wn & Hrunn & Hreqn & Hwrn & Hfilen & Htimn).
    + now rewrite Hfile.
    + exact Hk.
    + exact Ht.
    + intros k. rewrite Hclock. apply Hf.
    + exists wn. cbn [Runs.ensure_times]. unfold bind. rewrite Hrun.
      repeat split; try congruence. lia.
Qed.


End ManagerFacts.

(** ** The theorems at work *)

Section Witnesses.
Import JsString Json EventSub Sample.
#[local] Open Scope list_scope.







(** C5 at work: the Remote Event API is down. *)
Lemma ensureSubscription_remote_failure_witness :
  let run := ensure_online (world Missing failing_api) in
  fst run = Err (RemoteError "503")
  /\ requests (snd run) = [online_request]
  /\ file (snd run) = Missing /\ writes (snd run) = [] /\ timers (snd run) = [].
Proof.
  apply (ensureSubscription_remote_failure iso_getTime (world Missing failing_api)
           (wide "stream.online") online (wide "cb") (wide "secret") "503").
  - reflexivity.
  - vm_compute. reflexivity.
  - vm_compute. discriminate.
Defined.

(** C10 at work: the answer holds no descriptor. *)
Lemma ensureSubscription_no_descriptor_witness :
  let run := ensure_online (world Missing empty_api) in
  fst run = Err TypeError
  /\ requests (snd run) = [online_request]
  /\ file (snd run) = Missing /\ writes (snd run) = [] /\ timers (snd run) = [].
Proof.
  apply (ensureSubscription_no_descriptor iso_getTime (world Missing empty_api)
           (wide "stream.online") online (wide "cb") (wide "secret")).
  - reflexivity.
  - vm_compute. reflexivity.
  - vm_compute. discriminate.
Defined.

(** C6 as stated fails on a state file that holds [null]: what
    [loadState] returns is [null], which is neither a mapping that was
    persisted nor an empty mapping, and the call that loaded it fails. *)
Lemma loadState_returns_what_is_no_mapping :
  let w := world (Contents null_text) (mock_api sub1) in
  fst (loadState w) = Ok JNull
  /\ JNull <> JObj []
  /\ fst (ensure_online w) = Err TypeError.
Proof. vm_compute. repeat split. discriminate. Qed.

(** C6 at work: a missing file, a truncated file, a file whose text
    holds an escape beyond U+00FF, and the file that [saveState]
    wrote. *)
Lemma loadState_never_raises_witness :
  fst (loadState (world Missing (mock_api sub1))) = Ok (JObj [])
  /\ fst (loadState (world (Contents (wide "{ ")) (mock_api sub1))) = Ok (JObj [])
  /\ fst (loadState (world (Contents snowman_text) (mock_api sub1))) = Ok snowman_store
  /\ fst (loadState (snd (saveState online_store (world Missing (mock_api sub1)))))
     = Ok online_store.
Proof.
  split; [|split; [|split]].
  - destruct (loadState_never_raises (world Missing (mock_api sub1)))
      as (v & -> & Hmissing & _). cbn [fst]. f_equal. apply Hmissing. left. reflexivity.
  - destruct (loadState_never_raises (world (Contents (wide "{ ")) (mock_api sub1)))
      as (v & -> & _ & Hcorrupt & _). cbn [fst]. f_equal.
    apply (Hcorrupt (wide "{ ")); reflexivity.
  - destruct (loadState_never_raises (world (Contents snowman_text) (mock_api sub1)))
      as (v & -> & _ & _ & Hparsed & _). cbn [fst]. f_equal.
    apply (Hparsed snowman_text); reflexivity.
  - destruct (loadState_never_raises (snd (saveState online_store (world Missing (mock_api sub1)))))
      as (v & -> & _ & _ & _ & Hsaved). cbn [fst]. f_equal.
    apply (Hsaved (world Missing (mock_api sub1)) online_store); reflexivity.
Defined.



End Witnesses.

(** * The dispatcher *)

Section ChatFacts.
Import Chat Parse.
Context {Eff : Type}.
Implicit Types (b : Bot Eff) (u : ChatUserstate) (e : Entry Eff).

Lemma split_nonempty sep s : JsString.split sep s <> [].
Proof.
  destruct s as [|a r]; simpl; [discriminate|].
  destruct (Ascii.eqb a sep); [discriminate|].
  destruct (JsString.split sep r); discriminate.
Qed.

(** Joining the pieces with the separator gives the text back. *)
Lemma join_split s : JsString.join " " (JsString.split " " s) = s.
Proof.
  induction s as [|a r IH]; simpl; [reflexivity|].
  destruct (Ascii.eqb_spec a " ") as [->|Hne].
  - pose proof (split_nonempty " " r) as Hn.
    destruct (JsString.split " " r) as [|p ps] eqn:E; [congruence|].
    simpl in *. rewrite IH. reflexivity.
  - destruct (JsString.split " " r) as [|p ps] eqn:E.
    + exfalso. eapply split_nonempty; eauto.
    + simpl in *. destruct ps; simpl in *; subst; reflexivity.
Qed.

Lemma split_head_tail s :
  exists ps, JsString.split " " s = until_space s :: ps
             /\ JsString.join " " ps = after_space s.
Proof.
  induction s as [|a r IH]; simpl.
  - exists []. split; reflexivity.
  - destruct (Ascii.eqb_spec a " ") as [->|Hne].
    + exists (JsString.split " " r). split; [reflexivity|]. apply join_split.
    + destruct IH as (ps & E & J). rewrite E. exists ps. split; [reflexivity|exact J].
Qed.

Lemma cmd_of_until_space msg : cmd_of msg = until_space (JsString.slice1 msg).
Proof.
  unfold cmd_of, pieces. destruct (split_head_tail (JsString.slice1 msg)) as (ps & E & _).
  rewrite E. reflexivity.
Qed.

Lemma args_of_after_space msg :
  JsString.join " " (args_of msg) = after_space (JsString.slice1 msg).
Proof.
  unfold args_of, pieces. destruct (split_head_tail (JsString.slice1 msg)) as (ps & E & J).
  rewrite E. exact J.
Qed.

(** A text [c ++ " " ++ r] whose [c] holds no space is cut into [c] and
    [r]. *)
Lemma until_space_app c r :
  until_space c = c ->
  until_space (c ++ String " " r) = c /\ after_space (c ++ String " " r) = r.
Proof.
  induction c as [|a c IH]; simpl; intros H; [split; reflexivity|].
  destruct (Ascii.eqb a " "); [discriminate|].
  injection H as H. destruct (IH H) as [-> ->]. split; reflexivity.
Qed.

(** The cooldown check of [handleMessage], for an entry that has a
    cooldown and a user whose role is allowed: a call within the cooldown
    changes neither the ledger nor the calls, a later one records [now]
    under the key of the user and the command as typed. *)
Lemma handleMessage_cooldown b channel u message now e c :
  JsString.startsWith "!" message = true ->
  commands b !! JsString.toLowerCase (cmd_of message) = Some e ->
  role_allowed e u ->
  cooldown_of e = Some c ->
  let b' := handleMessage channel u message false now b in
  if now - last_of b (throttle_key u message) <? c
  then lastRun b' = lastRun b /\ calls b' = calls b /\ eff b' = eff b
  else lastRun b' = <[throttle_key u message := now]> (lastRun b)
       /\ calls b' = (calls b ++ [{| call_channel := channel; call_user := u;
                                    call_args := JsString.join " " (args_of message) |}])%list.
Proof.
  intros Hp Hc Hr Hcd. unfold handleMessage. rewrite Hp. cbn [orb negb].
  cbn [count_message commands]. rewrite Hc.
  replace (match roles (options e) with
           | Some rs => negb (includes rs (getRole u))
           | None => false
           end) with false
    by (unfold role_allowed in Hr; destruct (roles (options e)); [now rewrite Hr | reflexivity]).
  rewrite Hcd. unfold throttle_key, last_of. cbn [lastRun count_message].
  destruct (_ <? c); cbn; auto.
Qed.

(** C7: a message of the bot itself, or one that does not start with the
    prefix [!], leaves everything as it was: no handler is called, the
    counter of processed messages and the throttle ledger keep their
    values, nothing is logged. *)
Theorem handleMessage_ignores_self_and_plain_text b channel u message self now :
  self = true \/ JsString.startsWith "!" message = false ->
  handleMessage channel u message self now b = b.
Proof.
  intros [-> | H]; unfold handleMessage; [reflexivity|].
  rewrite H. rewrite orb_true_r. reflexivity.
Qed.

(** C8, amended: the message is cut at its first space character. The
    command is looked up under the lower-cased text between the prefix and
    the first space, and an accepted command has its handler called once,
    with the channel, the user and all the text behind that first space;
    without a space the argument string is empty. *)
Theorem handleMessage_args_follow_first_space b channel u message now e :
  JsString.startsWith "!" message = true ->
  commands b !! JsString.toLowerCase (until_space (JsString.slice1 message)) = Some e ->
  role_allowed e u ->
  cooled_down e u message now b ->
  let b' := handleMessage channel u message false now b in
  calls b' = (calls b ++ [{| call_channel := channel; call_user := u;
                             call_args := after_space (JsString.slice1 message) |}])%list
  /\ eff b' = handler e channel u (after_space (JsString.slice1 message)) (eff b).
Proof.
  intros Hp Hc Hr Ht. unfold handleMessage. rewrite Hp. cbn [orb negb].
  cbn [count_message commands].
  rewrite cmd_of_until_space, Hc, args_of_after_space.
  replace (match roles (options e) with
           | Some rs => negb (includes rs (getRole u))
           | None => false
           end) with false
    by (unfold role_allowed in Hr; destruct (roles (options e)); [now rewrite Hr | reflexivity]).
  unfold cooled_down, throttle_key in Ht. rewrite cmd_of_until_space in Ht.
  destruct (cooldown_of e) as [c|]; [|split; reflexivity].
  unfold last_of in *. cbn [lastRun count_message] in *.
  destruct (Z.ltb_spec (now - match lastRun b !! (JsString.interpolate (user_id u) ++ ":"
                                     ++ until_space (JsString.slice1 message))
                              with Some t => t | None => 0 end) c); [lia|].
  split; reflexivity.
Qed.


(** ** More about the dispatcher *)

(** A message that passes the guard, for a command that is registered:
    what is left of [handleMessage]. *)
Lemma handleMessage_registered b channel u message now e :
  JsString.startsWith "!" message = true ->
  commands b !! JsString.toLowerCase (cmd_of message) = Some e ->
  handleMessage channel u message false now b =
    let b1 := count_message Eff b in
    if match roles (options e) with
       | Some rs => negb (includes rs (getRole u))
       | None => false
       end
    then debug Eff "Command rejected due to insufficient role" b1
    else match cooldown_of e with
         | Some c =>
             if now - last_of b (throttle_key u message) <? c
             then debug Eff "Command throttled" b1
             else invoke Eff e channel u (JsString.join " " (args_of message))
                    (set_lastRun Eff (throttle_key u message) now b1)
         | None => invoke Eff e channel u (JsString.join " " (args_of message)) b1
         end.
Proof.
  intros Hp Hc. unfold handleMessage. rewrite Hp. cbn [orb negb].
  cbn [count_message commands]. rewrite Hc. reflexivity.
Qed.

(** X1: a command whose allow-list does not hold the role of the user is
    rejected before the cooldown is looked at: no handler runs and the
    ledger keeps its entries; the message is counted and one line is
    logged. *)
Theorem handleMessage_role_rejected b channel u message now e rs :
  JsString.startsWith "!" message = true ->
  commands b !! JsString.toLowerCase (cmd_of message) = Some e ->
  roles (options e) = Some rs ->
  includes rs (getRole u) = false ->
  let b' := handleMessage channel u message false now b in
  calls b' = calls b /\ eff b' = eff b /\ lastRun b' = lastRun b
  /\ chatMessageCounter b' = S (chatMessageCounter b)
  /\ debug_log b' = (debug_log b ++ ["Command rejected due to insufficient role"])%list.
Proof.
  intros Hp Hc Hr Hi. cbv zeta.
  rewrite (handleMessage_registered b channel u message now e Hp Hc), Hr, Hi.
  cbn. auto.
Qed.

(** X2: the allow-list is compared with the one role that [getRole]
    resolves, without any order among the roles: a user with the
    broadcaster badge resolves to [broadcaster], moderator or not, and a
    command whose list does not name [broadcaster] never runs for that
    user. *)
Theorem broadcaster_needs_to_be_listed b channel u message now e rs :
  JsString.startsWith "!" message = true ->
  commands b !! JsString.toLowerCase (cmd_of message) = Some e ->
  roles (options e) = Some rs ->
  has_badge u badge_broadcaster = true ->
  includes rs broadcaster = false ->
  let b' := handleMessage channel u message false now b in
  getRole u = broadcaster /\ calls b' = calls b /\ eff b' = eff b.
Proof.
  intros Hp Hc Hr Hb Hi.
  assert (Hrole : getRole u = broadcaster) by (unfold getRole; now rewrite Hb).
  split; [exact Hrole|].
  rewrite (handleMessage_registered b channel u message now e Hp Hc), Hr, Hrole, Hi.
  cbn. auto.
Qed.

(** Handling a message never changes the registry. *)
Lemma handleMessage_commands b channel u message self now :
  commands (handleMessage channel u message self now b) = commands b.
Proof.
  unfold handleMessage.
  destruct (self || negb (JsString.startsWith "!" message)); [reflexivity|].
  cbn [count_message commands].
  destruct (commands b !! JsString.toLowerCase (cmd_of message)) as [e|]; [|reflexivity].
  destruct (match roles (options e) with
            | Some rs => negb (includes rs (getRole u))
            | None => false
            end); [reflexivity|].
  destruct (cooldown_of e) as [c|]; [destruct (_ <? c)|]; reflexivity.
Qed.

(** The only entry of the ledger that a message can write is the one under
    the key of the user and the command, with the time of the message. *)
Lemma handleMessage_lastRun b channel u message self now :
  let b' := handleMessage channel u message self now b in
  lastRun b' = lastRun b \/ lastRun b' = <[throttle_key u message := now]> (lastRun b).
Proof.
  cbv zeta. unfold handleMessage.
  destruct (self || negb (JsString.startsWith "!" message)); [now left|].
  cbn [count_message commands].
  destruct (commands b !! JsString.toLowerCase (cmd_of message)) as [e|]; [|now left].
  destruct (match roles (options e) with
            | Some rs => negb (includes rs (getRole u))
            | None => false
            end); [now left|].
  destruct (cooldown_of e) as [c|]; [destruct (_ <? c)|]; cbn; auto.
Qed.

(** X3: what one message can do. The registry is never changed; the
    counter moves by one exactly for a message that is not the bot's own
    and starts with the prefix; at most one line is logged; and either no
    handler runs, and then the ledger and the state of the handlers are as
    before, or the handler of the command that the lower-cased token names
    runs once, and then the ledger is as before or holds [now] under the
    key of the user and the command. *)
Theorem handleMessage_accounting b channel u message self now :
  let b' := handleMessage channel u message self now b in
  commands b' = commands b
  /\ chatMessageCounter b'
     = (if self || negb (JsString.startsWith "!" message)
        then chatMessageCounter b else S (chatMessageCounter b))
  /\ (exists l, debug_log b' = (debug_log b ++ l)%list /\ (length l <= 1)%nat)
  /\ ((calls b' = calls b /\ eff b' = eff b /\ lastRun b' = lastRun b)
      \/ (exists e,
            commands b !! JsString.toLowerCase (cmd_of message) = Some e
            /\ calls b' = (calls b ++ [{| call_channel := channel; call_user := u;
                                         call_args := JsString.join " " (args_of message) |}])%list
            /\ eff b' = handler e channel u (JsString.join " " (args_of message)) (eff b)
            /\ (lastRun b' = lastRun b
                \/ lastRun b' = <[throttle_key u message := now]> (lastRun b)))).
Proof.
  cbv zeta. unfold handleMessage.
  destruct (self || negb (JsString.startsWith "!" message)).
  { repeat split; try reflexivity; [exists []; split; [now rewrite app_nil_r | simpl; lia] | left; auto]. }
  cbn [count_message commands].
  destruct (commands b !! JsString.toLowerCase (cmd_of message)) as [e|] eqn:Hc.
  2:{ cbn. repeat split; [exists []; split; [now rewrite app_nil_r | simpl; lia] | left; auto]. }
  destruct (match roles (options e) with
            | Some rs => negb (includes rs (getRole u))
            | None => false
            end).
  { cbn. repeat split; [eexists; split; [reflexivity | simpl; lia] | left; auto]. }
  destruct (cooldown_of e) as [c|].
  - destruct (_ <? c).
    + cbn. repeat split; [eexists; split; [reflexivity | simpl; lia] | left; auto].
    + cbn. repeat split; [exists []; split; [now rewrite app_nil_r | simpl; lia] |].
      right. exists e. repeat split. right. reflexivity.
  - cbn. repeat split; [exists []; split; [now rewrite app_nil_r | simpl; lia] |].
    right. exists e. repeat split. left. reflexivity.
Qed.

(** The same message of users that share a key, twice. *)
Lemma handleMessage_twice b channel u1 u2 message t1 t2 e c :
  JsString.startsWith "!" message = true ->
  commands b !! JsString.toLowerCase (cmd_of message) = Some e ->
  role_allowed e u1 -> role_allowed e u2 ->
  cooldown_of e = Some c ->
  throttle_key u1 message = throttle_key u2 message ->
  c <= t1 - last_of b (throttle_key u1 message) ->
  let b1 := handleMessage channel u1 message false t1 b in
  let b2 := handleMessage channel u2 message false t2 b1 in
  calls b1 = (calls b ++ [{| call_channel := channel; call_user := u1;
                            call_args := JsString.join " " (args_of message) |}])%list
  /\ if t2 - t1 <? c
     then calls b2 = calls b1 /\ eff b2 = eff b1
          /\ lastRun b2 !! throttle_key u1 message = Some t1
     else calls b2 = (calls b1 ++ [{| call_channel := channel; call_user := u2;
                                     call_args := JsString.join " " (args_of message) |}])%list
          /\ lastRun b2 !! throttle_key u1 message = Some t2.
Proof.
  intros Hp Hc Hr1 Hr2 Hcd Hkey Hfirst. cbv zeta.
  pose proof (handleMessage_cooldown b channel u1 message t1 e c Hp Hc Hr1 Hcd) as H1.
  cbv zeta in H1.
  destruct (Z.ltb_spec (t1 - last_of b (throttle_key u1 message)) c) as [|_]; [lia|].
  destruct H1 as [Hl1 Hc1]. split; [exact Hc1|].
  set (b1 := handleMessage channel u1 message false t1 b) in *.
  assert (Hcmds : commands b1 = commands b) by apply handleMessage_commands.
  assert (Hlast : last_of b1 (throttle_key u2 message) = t1).
  { unfold last_of. rewrite Hl1, <- Hkey, lookup_insert_eq. reflexivity. }
  pose proof (handleMessage_cooldown b1 channel u2 message t2 e c Hp) as H2.
  rewrite Hcmds in H2. specialize (H2 Hc Hr2 Hcd). cbv zeta in H2. rewrite Hlast in H2.
  destruct (t2 - t1 <? c).
  - destruct H2 as (Hl2 & Hc2 & He2). repeat split; try assumption.
    rewrite Hl2, Hl1. apply lookup_insert_eq.
  - destruct H2 as (Hl2 & Hc2). split; [exact Hc2|].
    rewrite Hl2, <- Hkey. apply lookup_insert_eq.
Qed.

(** X4: the dispatcher throttles per user and spelling. After a command
    with a cooldown has run for a user, the same message of that user runs
    the handler again exactly when the cooldown has passed since the
    first run; a message within the cooldown leaves the time of the first
    run in the ledger. *)
Theorem handleMessage_cooldown_window b channel u message t1 t2 e c :
  JsString.startsWith "!" message = true ->
  commands b !! JsString.toLowerCase (cmd_of message) = Some e ->
  role_allowed e u ->
  cooldown_of e = Some c ->
  c <= t1 - last_of b (throttle_key u message) ->
  let b1 := handleMessage channel u message false t1 b in
  let b2 := handleMessage channel u message false t2 b1 in
  calls b1 = (calls b ++ [{| call_channel := channel; call_user := u;
                            call_args := JsString.join " " (args_of message) |}])%list
  /\ if t2 - t1 <? c
     then calls b2 = calls b1 /\ eff b2 = eff b1
          /\ lastRun b2 !! throttle_key u message = Some t1
     else calls b2 = (calls b1 ++ [{| call_channel := channel; call_user := u;
                                     call_args := JsString.join " " (args_of message) |}])%list
          /\ lastRun b2 !! throttle_key u message = Some t2.
Proof.
  intros Hp Hc Hr Hcd Hfirst.
  exact (handleMessage_twice b channel u u message t1 t2 e c Hp Hc Hr Hr Hcd eq_refl Hfirst).
Qed.

(** X5: users without a [user-id] share one key, [undefined:cmd]: the
    command that has run for one of them is throttled for the other
    within the cooldown. *)
Theorem users_without_id_share_cooldown b channel u1 u2 message t1 t2 e c :
  JsString.startsWith "!" message = true ->
  commands b !! JsString.toLowerCase (cmd_of message) = Some e ->
  role_allowed e u1 -> role_allowed e u2 ->
  cooldown_of e = Some c ->
  user_id u1 = None -> user_id u2 = None ->
  c <= t1 - last_of b (throttle_key u1 message) ->
  t2 - t1 < c ->
  let b1 := handleMessage channel u1 message false t1 b in
  let b2 := handleMessage channel u2 message false t2 b1 in
  throttle_key u1 message = "undefined:" ++ cmd_of message
  /\ calls b2 = calls b1 /\ eff b2 = eff b1.
Proof.
  intros Hp Hc Hr1 Hr2 Hcd Hu1 Hu2 Hfirst Hwithin. cbv zeta.
  assert (Hkey : throttle_key u1 message = throttle_key u2 message)
    by (unfold throttle_key; now rewrite Hu1, Hu2).
  split; [unfold throttle_key; now rewrite Hu1|].
  pose proof (handleMessage_twice b channel u1 u2 message t1 t2 e c
                Hp Hc Hr1 Hr2 Hcd Hkey Hfirst) as [_ H].
  destruct (Z.ltb_spec (t2 - t1) c); [|lia]. destruct H as (H1 & H2 & _). auto.
Qed.

(** X6: a cooldown of zero is no cooldown. A command without a cooldown,
    or with one of 0 ms, runs for every message of an allowed user and
    never touches the ledger. *)
Theorem handleMessage_without_cooldown b channel u message now e :
  JsString.startsWith "!" message = true ->
  commands b !! JsString.toLowerCase (cmd_of message) = Some e ->
  role_allowed e u ->
  cooldownMs (options e) = None \/ cooldownMs (options e) = Some 0 ->
  let b' := handleMessage channel u message false now b in
  calls b' = (calls b ++ [{| call_channel := channel; call_user := u;
                            call_args := JsString.join " " (args_of message) |}])%list
  /\ lastRun b' = lastRun b.
Proof.
  intros Hp Hc Hr Hcd. cbv zeta.
  rewrite (handleMessage_registered b channel u message now e Hp Hc).
  replace (match roles (options e) with
           | Some rs => negb (includes rs (getRole u))
           | None => false
           end) with false
    by (unfold role_allowed in Hr; destruct (roles (options e)); [now rewrite Hr | reflexivity]).
  assert (Hnone : cooldown_of e = None)
    by (unfold cooldown_of; destruct Hcd as [-> | ->]; reflexivity).
  rewrite Hnone. cbn. auto.
Qed.

(** X7: a key that the ledger does not hold counts as last used at time
    0: the first use of a command with a cooldown of [c] ms runs exactly
    when the clock reads [c] or more. *)
Theorem handleMessage_first_use b channel u message now e c :
  JsString.startsWith "!" message = true ->
  commands b !! JsString.toLowerCase (cmd_of message) = Some e ->
  role_allowed e u ->
  cooldown_of e = Some c ->
  lastRun b !! throttle_key u message = None ->
  let b' := handleMessage channel u message false now b in
  if now <? c
  then calls b' = calls b /\ lastRun b' = lastRun b
  else calls b' = (calls b ++ [{| call_channel := channel; call_user := u;
                                 call_args := JsString.join " " (args_of message) |}])%list
       /\ lastRun b' !! throttle_key u message = Some now.
Proof.
  intros Hp Hc Hr Hcd Hnone. cbv zeta.
  pose proof (handleMessage_cooldown b channel u message now e c Hp Hc Hr Hcd) as H.
  cbv zeta in H. unfold last_of in H. rewrite Hnone in H.
  replace (now - 0) with now in H by lia.
  destruct (now <? c).
  - destruct H as (H1 & H2 & _). auto.
  - destruct H as (H1 & H2). split; [exact H2|]. rewrite H1. apply lookup_insert_eq.
Qed.

(** X8: one user's use of a command never throttles another user. For two
    users with different ids that hold no colon, whatever message of the
    first is handled, the ledger reads for every key of the second as
    before. *)
Theorem cooldowns_of_users_are_apart b channel u1 u2 m1 m2 self now i1 i2 :
  user_id u1 = Some i1 -> user_id u2 = Some i2 -> i1 <> i2 ->
  Config.count_unit ":" i1 = O -> Config.count_unit ":" i2 = O ->
  last_of (handleMessage channel u1 m1 self now b) (throttle_key u2 m2)
  = last_of b (throttle_key u2 m2).
Proof.
  intros H1 H2 Hne Hc1 Hc2.
  destruct (handleMessage_lastRun b channel u1 m1 self now) as [Hl | Hl];
    unfold last_of; rewrite Hl; try reflexivity.
  rewrite lookup_insert_ne; [reflexivity|].
  unfold throttle_key. rewrite H1, H2. simpl. intros Heq.
  apply app_colon_inj in Heq as [Heq _]; auto.
Qed.

(** X9: a command is found whatever the letter case of its registration
    and of the message, and the last registration of a name is the one
    that counts: after [registerCommand name h] without restrictions, on
    any bot, a message whose token lower-cases to the lower-cased name
    runs [h]. *)
Theorem registerCommand_then_handle b name h opts channel u message now :
  roles opts = None -> cooldownMs opts = None ->
  JsString.startsWith "!" message = true ->
  JsString.toLowerCase (cmd_of message) = JsString.toLowerCase name ->
  let b' := handleMessage channel u message false now (registerCommand name h opts b) in
  calls b' = (calls b ++ [{| call_channel := channel; call_user := u;
                            call_args := JsString.join " " (args_of message) |}])%list
  /\ eff b' = h channel u (JsString.join " " (args_of message)) (eff b)
  /\ lastRun b' = lastRun b.
Proof.
  intros Hr Hcd Hp Hname. cbv zeta.
  rewrite (handleMessage_registered _ channel u message now
             {| handler := h; options := opts |} Hp).
  - cbn [options handler]. rewrite Hr. unfold cooldown_of. cbn [options]. rewrite Hcd.
    cbn. auto.
  - unfold registerCommand. cbn [commands]. rewrite Hname. apply lookup_insert_eq.
Qed.

End ChatFacts.

(** C7 at work: the bot that knows [ping] sees its own [!ping] and a
    plain [ping] of a user. *)
Lemma handleMessage_ignores_self_and_plain_text_witness :
  Chat.handleMessage "#chan" Sample.alice "!ping" true 1700000000000 Sample.ping_bot
    = Sample.ping_bot
  /\ Chat.handleMessage "#chan" Sample.alice "ping" false 1700000000000 Sample.ping_bot
    = Sample.ping_bot.
Proof.
  split.
  - apply (handleMessage_ignores_self_and_plain_text Sample.ping_bot). left. reflexivity.
  - apply (handleMessage_ignores_self_and_plain_text Sample.ping_bot). right. reflexivity.
Defined.

(** C8 as stated fails: behind two spaces the handler receives the second
    space as well, where the specification's parse drops the whole run. *)
Lemma handleMessage_args_keep_whitespace :
  let b' := Chat.handleMessage "#chan" Sample.bob "!raid  bob" false 1700000000000
              Sample.raid_bot in
  map Chat.call_args (Chat.calls b') = [" bob"]
  /\ Chat.eff b' = [" bob"]
  /\ Parse.spec_argsRemainder "!raid  bob" = "bob"
  /\ map Chat.call_args (Chat.calls b') <> [Parse.spec_argsRemainder "!raid  bob"].
Proof.
  vm_compute. repeat split; try reflexivity. discriminate.
Qed.

(** C8, amended, at work on the same message. *)
Lemma handleMessage_args_follow_first_space_witness :
  let b' := Chat.handleMessage "#chan" Sample.bob "!raid  bob" false 1700000000000
              Sample.raid_bot in
  Chat.calls b' = [{| Chat.call_channel := "#chan"; Chat.call_user := Sample.bob;
                      Chat.call_args := " bob" |}]
  /\ Chat.eff b' = [" bob"].
Proof.
  apply (handleMessage_args_follow_first_space Sample.raid_bot "#chan" Sample.bob
           "!raid  bob" 1700000000000
           {| Chat.handler := Sample.push_args;
              Chat.options := {| Chat.cooldownMs := None;
                                 Chat.roles := Some [Chat.broadcaster; Chat.moderator] |} |}).
  - reflexivity.
  - vm_compute. reflexivity.
  - reflexivity.
  - exact I.
Defined.

(** C4 fails on the code: the ledger is keyed by the command as it was
    typed, not by its lower-cased name. [!ping] and, a millisecond later,
    [!PING] of the same user both reach the handler of [ping], whose
    cooldown is a second; the same spelling twice is throttled. *)
Theorem cooldown_bypassed_by_letter_case :
  let first := Chat.handleMessage "#chan" Sample.alice "!ping" false 1700000000000
                 Sample.ping_bot in
  let varied := Chat.handleMessage "#chan" Sample.alice "!PING" false 1700000000001 first in
  let same := Chat.handleMessage "#chan" Sample.alice "!ping" false 1700000000001 first in
  Chat.eff first = ["pong:#chan"]
  /\ Chat.eff varied = ["pong:#chan"; "pong:#chan"]
  /\ length (Chat.calls varied) = 2%nat
  /\ Chat.lastRun varied !! "1:ping" = Some 1700000000000
  /\ Chat.lastRun varied !! "1:PING" = Some 1700000000001
  /\ Chat.eff same = ["pong:#chan"]
  /\ length (Chat.calls same) = 1%nat.
Proof.
  vm_compute. repeat split; reflexivity.
Qed.

(** * The factories *)

Section ConfigFacts.
Import Config.

Lemma env_var_spec env name s :
  env_var env name = Some s <-> env !! name = Some s /\ s <> EmptyString.
Proof.
  unfold env_var. destruct (env !! name) as [[|a r]|].
  - split; [discriminate | intros [H Hn]; injection H as <-; congruence].
  - split.
    + intros H. injection H as <-. split; [reflexivity | discriminate].
    + intros [H _]. exact H.
  - split; [discriminate | intros [H _]; discriminate H].
Qed.

(** X20: both factories throw exactly when one of their variables is
    unset or set to the empty text; otherwise [ChatBot.fromEnv] passes
    the user name and the token as they are, and [TwitchClient.fromEnv]
    the client id and the client secret. *)
Theorem fromEnv_needs_every_variable env :
  (match ChatBot_fromEnv env with
   | inl args =>
       env !! "TWITCH_CHAT_USERNAME" = Some (arg_username args)
       /\ env !! "TWITCH_CHAT_TOKEN" = Some (arg_token args)
       /\ arg_username args <> EmptyString /\ arg_token args <> EmptyString
       /\ exists c, env !! "TWITCH_CHAT_CHANNELS" = Some c /\ c <> EmptyString
   | inr msg =>
       msg = missing_chat
       /\ exists name, In name ["TWITCH_CHAT_USERNAME"; "TWITCH_CHAT_TOKEN"; "TWITCH_CHAT_CHANNELS"]
                       /\ (env !! name = None \/ env !! name = Some EmptyString)
   end)
  /\ (match TwitchClient_fromEnv env with
      | inl (i, s) =>
          env !! "TWITCH_CLIENT_ID" = Some i /\ env !! "TWITCH_CLIENT_SECRET" = Some s
          /\ i <> EmptyString /\ s <> EmptyString
      | inr msg =>
          msg = missing_twitch
          /\ exists name, In name ["TWITCH_CLIENT_ID"; "TWITCH_CLIENT_SECRET"]
                          /\ (env !! name = None \/ env !! name = Some EmptyString)
      end).
Proof.
  assert (Hmiss : forall name, env_var env name = None ->
                    env !! name = None \/ env !! name = Some EmptyString).
  { intros name. unfold env_var. destruct (env !! name) as [[|a r]|]; auto; discriminate. }
  split.
  - unfold ChatBot_fromEnv.
    destruct (env_var env "TWITCH_CHAT_USERNAME") as [u|] eqn:Hu.
    2:{ split; [reflexivity|]. exists "TWITCH_CHAT_USERNAME". split; [simpl; auto | auto]. }
    destruct (env_var env "TWITCH_CHAT_TOKEN") as [t|] eqn:Ht.
    2:{ split; [reflexivity|]. exists "TWITCH_CHAT_TOKEN". split; [simpl; auto | auto]. }
    destruct (env_var env "TWITCH_CHAT_CHANNELS") as [c|] eqn:Hc.
    2:{ split; [reflexivity|]. exists "TWITCH_CHAT_CHANNELS". split; [simpl; auto | auto]. }
    apply env_var_spec in Hu as [Hu Hu'], Ht as [Ht Ht'], Hc as [Hc Hc'].
    cbn [arg_username arg_token]. repeat split; try assumption. exists c. auto.
  - unfold TwitchClient_fromEnv.
    destruct (env_var env "TWITCH_CLIENT_ID") as [i|] eqn:Hi.
    2:{ split; [reflexivity|]. exists "TWITCH_CLIENT_ID". split; [simpl; auto | auto]. }
    destruct (env_var env "TWITCH_CLIENT_SECRET") as [s|] eqn:Hs.
    2:{ split; [reflexivity|]. exists "TWITCH_CLIENT_SECRET". split; [simpl; auto | auto]. }
    apply env_var_spec in Hi as [Hi Hi'], Hs as [Hs Hs']. auto.
Qed.

(** *** The channels *)

Lemma split_length sep s :
  length (JsString.split sep s) = S (count_unit sep s).
Proof.
  induction s as [|a s IH]; [reflexivity|]. simpl.
  destruct (Ascii.eqb a sep); simpl; [now rewrite IH|].
  destruct (JsString.split sep s) as [|p ps]; [discriminate | exact IH].
Qed.

Lemma split_no_separator sep s :
  Forall (fun p => count_unit sep p = O) (JsString.split sep s).
Proof.
  induction s as [|a s IH]; simpl; [repeat constructor|].
  destruct (Ascii.eqb a sep) eqn:E; [constructor; [reflexivity | exact IH]|].
  destruct (JsString.split sep s) as [|p ps].
  - repeat constructor. simpl. now rewrite E.
  - inversion IH as [|? ? Hp Hps]; subst. constructor; [|exact Hps]. simpl. now rewrite E.
Qed.

Lemma drop_whitespace_first s :
  match first_unit (Parse.drop_whitespace s) with
  | Some a => Parse.is_whitespace a = false
  | None => True
  end.
Proof.
  induction s as [|a s IH]; simpl; [exact I|].
  destruct (Parse.is_whitespace a) eqn:E; [exact IH | simpl; exact E].
Qed.

Lemma trim_end_last s :
  match last_unit (trim_end s) with
  | Some a => Parse.is_whitespace a = false
  | None => True
  end.
Proof.
  induction s as [|a s IH]; simpl; [exact I|].
  destruct (trim_end s) as [|b r] eqn:E.
  - destruct (Parse.is_whitespace a) eqn:Ea; simpl; [exact I | exact Ea].
  - exact IH.
Qed.

Lemma trim_end_first s :
  match first_unit s with
  | Some a => Parse.is_whitespace a = false
  | None => True
  end ->
  first_unit (trim_end s) = first_unit s.
Proof.
  destruct s as [|a s]; simpl; [reflexivity|]. intros Ha.
  destruct (trim_end s); [now rewrite Ha | reflexivity].
Qed.

Lemma count_unit_drop_whitespace c s :
  (count_unit c (Parse.drop_whitespace s) <= count_unit c s)%nat.
Proof.
  induction s as [|a s IH]; simpl; [lia|].
  destruct (Parse.is_whitespace a); simpl; destruct (Ascii.eqb a c); lia.
Qed.

Lemma count_unit_trim_end c s : (count_unit c (trim_end s) <= count_unit c s)%nat.
Proof.
  induction s as [|a s IH]; simpl; [lia|].
  destruct (trim_end s) as [|b r] eqn:E.
  - destruct (Parse.is_whitespace a); simpl; destruct (Ascii.eqb a c); simpl in *; lia.
  - simpl in *. destruct (Ascii.eqb a c); lia.
Qed.

(** [trim] leaves no white space at either end. *)
Lemma trim_ends s :
  match first_unit (trim s) with
  | Some a => Parse.is_whitespace a = false
  | None => True
  end
  /\ match last_unit (trim s) with
     | Some a => Parse.is_whitespace a = false
     | None => True
     end.
Proof.
  unfold trim. split; [|apply trim_end_last].
  pose proof (drop_whitespace_first s) as H.
  rewrite trim_end_first by exact H. exact H.
Qed.

(** X21: the channels that [ChatBot.fromEnv] passes on. There is one more
    than the value of TWITCH_CHAT_CHANNELS has commas, so never none; a
    channel holds no comma and neither starts nor ends with white space;
    it can be empty. *)
Theorem fromEnv_channels env args :
  ChatBot_fromEnv env = inl args ->
  exists c, env !! "TWITCH_CHAT_CHANNELS" = Some c
    /\ length (arg_channels args) = S (count_unit "," c)
    /\ Forall (fun ch =>
         count_unit "," ch = O
         /\ match first_unit ch with
            | Some a => Parse.is_whitespace a = false
            | None => True
            end
         /\ match last_unit ch with
            | Some a => Parse.is_whitespace a = false
            | None => True
            end) (arg_channels args).
Proof.
  unfold ChatBot_fromEnv.
  destruct (env_var env "TWITCH_CHAT_USERNAME") as [u|]; [|discriminate].
  destruct (env_var env "TWITCH_CHAT_TOKEN") as [t|]; [|discriminate].
  destruct (env_var env "TWITCH_CHAT_CHANNELS") as [c|] eqn:Hc; [|discriminate].
  intros H. injection H as <-. cbn [arg_channels].
  apply env_var_spec in Hc as [Hc _]. exists c.
  split; [exact Hc|]. split; [now rewrite length_map, split_length|].
  apply Forall_map. eapply Forall_impl; [apply split_no_separator|].
  intros p Hp. cbn beta in Hp |- *. split; [|apply trim_ends].
  unfold trim.
  pose proof (count_unit_trim_end "," (Parse.drop_whitespace p)).
  pose proof (count_unit_drop_whitespace "," p). lia.
Qed.

End ConfigFacts.

(** * The signature check *)

Section SignatureFacts.
Import Signature.

Lemma N_of_ascii_bound a : (N_of_ascii a < 256)%N.
Proof. destruct a as [[|] [|] [|] [|] [|] [|] [|] [|]]; reflexivity. Qed.

Lemma N_of_ascii_inj a b : N_of_ascii a = N_of_ascii b -> a = b.
Proof. intros H. rewrite <- (ascii_N_embedding a), <- (ascii_N_embedding b). now rewrite H. Qed.

(** The encoding of a code unit can be read off the front of a buffer. *)
Lemma utf8_unit_inj a b (l1 l2 : list N) :
  (utf8_unit a ++ l1)%list = (utf8_unit b ++ l2)%list -> a = b /\ l1 = l2.
Proof.
  unfold utf8_unit.
  pose proof (N_of_ascii_bound a) as Ha. pose proof (N_of_ascii_bound b) as Hb.
  destruct (N.ltb_spec (N_of_ascii a) 128) as [Ha'|Ha'],
           (N.ltb_spec (N_of_ascii b) 128) as [Hb'|Hb'];
    simpl; intros H.
  - injection H as E ->. split; [now apply N_of_ascii_inj | reflexivity].
  - injection H as E _. exfalso.
    generalize dependent (N_of_ascii b / 64)%N. intros q E. lia.
  - injection H as E _. exfalso.
    generalize dependent (N_of_ascii a / 64)%N. intros q E. lia.
  - injection H as H1 H2 ->. split; [|reflexivity]. apply N_of_ascii_inj.
    rewrite (N.div_mod (N_of_ascii a) 64), (N.div_mod (N_of_ascii b) 64) by lia.
    apply N.add_cancel_l in H1, H2. now rewrite H1, H2.
Qed.

Lemma Buffer_from_inj s1 : forall s2, Buffer_from s1 = Buffer_from s2 -> s1 = s2.
Proof.
  induction s1 as [|a s1 IH]; intros [|b s2] H; simpl in H.
  - reflexivity.
  - unfold utf8_unit in H. destruct (N_of_ascii b <? 128)%N; discriminate.
  - unfold utf8_unit in H. destruct (N_of_ascii a <? 128)%N; discriminate.
  - apply utf8_unit_inj in H as [-> H]. f_equal. now apply IH.
Qed.

Lemma bytes_eqb_eq a : forall b, bytes_eqb a b = true <-> a = b.
Proof.
  induction a as [|x a IH]; intros [|y b]; simpl; split; try discriminate; try reflexivity.
  - intros H. apply andb_prop in H as [H1 H2]. apply N.eqb_eq in H1. apply IH in H2.
    congruence.
  - intros H. injection H as -> ->. rewrite N.eqb_refl. now apply IH.
Qed.

(** X22: the signature check never throws and accepts a signature exactly
    when it is, byte for byte, [sha256=] followed by the HMAC of the id,
    the time stamp and the body, in this order and without separators:
    the lengths are compared before [timingSafeEqual], which would throw
    on buffers of different lengths. *)
Theorem verifyEventSubSignature_accepts_expected hmac id timestamp body signature secret :
  verifyEventSubSignature hmac id timestamp body signature secret
  = Some (String.eqb signature (expected_signature hmac id timestamp body secret)).
Proof.
  unfold verifyEventSubSignature, timingSafeEqual.
  set (expected := expected_signature hmac id timestamp body secret).
  destruct (Nat.eqb_spec (length (Buffer_from signature)) (length (Buffer_from expected)))
    as [_|Hlen]; f_equal.
  - destruct (String.eqb_spec signature expected) as [->|Hne].
    + now apply bytes_eqb_eq.
    + destruct (bytes_eqb (Buffer_from signature) (Buffer_from expected)) eqn:E; [|reflexivity].
      apply bytes_eqb_eq, Buffer_from_inj in E. congruence.
  - destruct (String.eqb_spec signature expected) as [->|Hne]; [congruence | reflexivity].
Qed.

End SignatureFacts.

(** * The Helix client *)

Section TwitchFacts.
Import Twitch EventSub.

(** The two answers of Helix and of the token endpoint. *)
Ltac case_helix :=
  match goal with
  | |- context [helix ?x1 ?x2 ?x3] => destruct (helix x1 x2 x3)
  end.

(** With a token in the cache, [request] goes straight to Helix. *)
Lemma request_with_token config c :
  has_token c = true ->
  let c' := snd (request config c) in
  token_posts c' = token_posts c /\ accessToken c' = accessToken c
  /\ headers c' = headers c
  /\ sent c' = (sent c ++ [{| default_headers := headers c; sent_config := config |}])%list
  /\ has_token c' = true
  /\ token_endpoint c' = token_endpoint c /\ clientId c' = clientId c
  /\ clientSecret c' = clientSecret c.
Proof.
  intros Ht. cbv zeta. unfold request, cbind, authenticate. rewrite Ht.
  unfold http_request. cbn. unfold has_token in *.
  case_helix; cbn; repeat split; assumption.
Qed.

(** X23: the counter [twitch_api_requests] counts the requests that Helix
    answered. A request that returns adds its URL once; a request that
    fails, at the token endpoint or at Helix, adds nothing. One request
    is sent to Helix at most, and none when the token endpoint fails. *)
Theorem request_counts_answers config c :
  let r := fst (request config c) in
  let c' := snd (request config c) in
  match r with
  | Ok _ =>
      apiRequestCounter c' = (apiRequestCounter c ++ [url config])%list
      /\ exists hs, sent c' = (sent c ++ [{| default_headers := hs; sent_config := config |}])%list
  | Err _ =>
      apiRequestCounter c' = apiRequestCounter c
      /\ (sent c' = sent c
          \/ exists hs, sent c' = (sent c ++ [{| default_headers := hs; sent_config := config |}])%list)
  end.
Proof.
  cbv zeta. unfold request, cbind, authenticate, cbind, post_token, cache_token, http_request,
    count_request, cret.
  destruct (has_token c); cbn.
  - case_helix; cbn; split; eauto.
  - destruct (token_endpoint c (length (token_posts c))); cbn; [auto|].
    case_helix; cbn; split; eauto.
Qed.

(** X24: the token is fetched once. On a client without a token whose
    token endpoint answers with a token that is not empty, two requests in
    a row post the credentials once; both requests leave with the client
    id and [Bearer] and the token in their headers, and the token stays
    in the cache, whatever Helix answers. *)
Theorem request_fetches_token_once cfg1 cfg2 c tok :
  has_token c = false ->
  token_endpoint c (length (token_posts c)) = TokenOk (Some tok) ->
  tok <> EmptyString ->
  let c1 := snd (request cfg1 c) in
  let c2 := snd (request cfg2 c1) in
  token_posts c2 = (token_posts c ++ [credentials c])%list
  /\ sent c2 = (sent c ++ [{| default_headers := signed_headers c (Some tok); sent_config := cfg1 |};
                           {| default_headers := signed_headers c (Some tok); sent_config := cfg2 |}])%list
  /\ accessToken c2 = Some tok.
Proof.
  intros Hno Htok Hne. cbv zeta.
  set (c1 := snd (request cfg1 c)).
  assert (H1 : token_posts c1 = (token_posts c ++ [credentials c])%list
               /\ sent c1 = (sent c ++ [{| default_headers := signed_headers c (Some tok);
                                          sent_config := cfg1 |}])%list
               /\ accessToken c1 = Some tok
               /\ headers c1 = signed_headers c (Some tok)).
  { unfold c1, request, cbind, authenticate, cbind, post_token, cache_token, http_request,
      count_request, cret. rewrite Hno. cbn. rewrite Htok. cbn.
    case_helix; cbn; auto. }
  destruct H1 as (Hp1 & Hs1 & Ha1 & Hh1).
  assert (Ht1 : has_token c1 = true).
  { unfold has_token. rewrite Ha1. destruct tok; [congruence | reflexivity]. }
  destruct (request_with_token cfg2 c1 Ht1) as (Hp2 & Ha2 & _ & Hs2 & _).
  rewrite Hp2, Hs2, Ha2, Hp1, Hs1, Ha1, Hh1, <- app_assoc. auto.
Qed.

(** X25: when the token endpoint fails, the request fails with its error;
    nothing is sent to Helix, nothing is counted, and no token is cached,
    so that the next request posts the credentials again. *)
Theorem request_without_token config c reason :
  has_token c = false ->
  token_endpoint c (length (token_posts c)) = TokenFail reason ->
  let c' := snd (request config c) in
  fst (request config c) = Err (RemoteError reason)
  /\ sent c' = sent c /\ apiRequestCounter c' = apiRequestCounter c
  /\ has_token c' = false /\ headers c' = headers c
  /\ token_posts c' = (token_posts c ++ [credentials c])%list.
Proof.
  intros Hno Hfail. cbv zeta.
  unfold request, cbind, authenticate, cbind, post_token. rewrite Hno. cbn. rewrite Hfail. cbn.
  unfold has_token in *. cbn. repeat split. exact Hno.
Qed.

(** A request of a client without a token posts the credentials, whatever
    the token endpoint answers. *)
Lemma request_posts_credentials config c :
  has_token c = false ->
  token_posts (snd (request config c)) = (token_posts c ++ [credentials c])%list.
Proof.
  intros Hno.
  unfold request, cbind, authenticate, cbind, post_token, cache_token, http_request,
    count_request, cret. rewrite Hno. cbn.
  destruct (token_endpoint c (length (token_posts c))); cbn; [reflexivity|].
  case_helix; reflexivity.
Qed.

(** X26: an answer of the token endpoint without an [access_token], or
    with an empty one, is taken as it is. [authenticate] assigns
    [Bearer undefined], or [Bearer] and a space, to the default
    [Authorization] header, and the request is passed on to the HTTP
    layer; the client is still without a token afterwards, so that the
    next request posts the credentials again: two requests in a row
    post them twice. *)
Theorem request_with_unusable_token cfg1 cfg2 c t :
  has_token c = false ->
  token_endpoint c (length (token_posts c)) = TokenOk t ->
  t = None \/ t = Some EmptyString ->
  let c1 := snd (request cfg1 c) in
  let c2 := snd (request cfg2 c1) in
  headers c1 !! "Authorization"
  = Some (match t with None => "Bearer undefined" | Some _ => "Bearer " end)
  /\ sent c1 = (sent c ++ [{| default_headers := headers c1; sent_config := cfg1 |}])%list
  /\ has_token c1 = false
  /\ token_posts c1 = (token_posts c ++ [credentials c])%list
  /\ token_posts c2 = (token_posts c ++ [credentials c; credentials c])%list.
Proof.
  intros Hno Htok Ht. cbv zeta.
  assert (H1 : headers (snd (request cfg1 c)) = signed_headers c t
               /\ sent (snd (request cfg1 c))
                  = (sent c ++ [{| default_headers := signed_headers c t;
                                   sent_config := cfg1 |}])%list
               /\ accessToken (snd (request cfg1 c)) = t
               /\ clientId (snd (request cfg1 c)) = clientId c
               /\ clientSecret (snd (request cfg1 c)) = clientSecret c).
  { unfold request, cbind, authenticate, cbind, post_token, cache_token, http_request,
      count_request, cret. rewrite Hno. cbn. rewrite Htok. cbn.
    case_helix; cbn; repeat split. }
  destruct H1 as (Hh & Hs & Ha & Hi & Hse).
  assert (Hno1 : has_token (snd (request cfg1 c)) = false).
  { unfold has_token. rewrite Ha. destruct Ht as [-> | ->]; reflexivity. }
  split; [|split; [|split; [|split]]].
  - rewrite Hh. unfold signed_headers. rewrite lookup_insert_eq.
    destruct Ht as [-> | ->]; reflexivity.
  - rewrite Hs, Hh. reflexivity.
  - exact Hno1.
  - now apply request_posts_credentials.
  - rewrite (request_posts_credentials cfg2 _ Hno1), (request_posts_credentials cfg1 c Hno).
    unfold credentials. rewrite Hi, Hse, <- app_assoc. reflexivity.
Qed.

(** X27: [createEventSubSubscription] logs after the answer only. When it
    returns, it returns what Helix answered to one POST of the payload to
    [/eventsub/subscriptions], the request is counted under that URL and
    [EventSub subscription requested] is logged once; when it fails,
    nothing is logged and nothing is counted. *)
Theorem createEventSubSubscription_logs_after_answer type condition cb s c :
  let run := Twitch.createEventSubSubscription type condition cb s c in
  let config := {| url := "/eventsub/subscriptions"; method := "POST"; params := [];
                   data := Some (payload type condition cb s) |} in
  match fst run with
  | Ok v =>
      info_log (snd run) = (info_log c ++ ["EventSub subscription requested"])%list
      /\ apiRequestCounter (snd run) = (apiRequestCounter c ++ ["/eventsub/subscriptions"])%list
      /\ exists hs,
           sent (snd run) = (sent c ++ [{| default_headers := hs; sent_config := config |}])%list
           /\ helix c (length (sent c)) {| default_headers := hs; sent_config := config |} = Ok v
  | Err _ =>
      info_log (snd run) = info_log c /\ apiRequestCounter (snd run) = apiRequestCounter c
  end.
Proof.
  cbv zeta. unfold Twitch.createEventSubSubscription, request, cbind, authenticate, cbind, post_token,
    cache_token, http_request, count_request, info, cret.
  destruct (has_token c); cbn.
  - destruct (helix c _ _) eqn:Hx; cbn; repeat split; eauto.
  - destruct (token_endpoint c _); cbn; [auto|].
    destruct (helix c _ _) eqn:Hx; cbn; repeat split; eauto.
Qed.

End TwitchFacts.

(** * The further facts at work *)

Section MoreWitnesses.
Import JsString Json EventSub Chat Sample Fixtures.

Lemma handleMessage_role_rejected_witness :
  let b' := handleMessage "#chan" alice "!raid bob" false t0 raid_bot in
  calls b' = calls raid_bot /\ eff b' = eff raid_bot /\ lastRun b' = lastRun raid_bot
  /\ chatMessageCounter b' = S (chatMessageCounter raid_bot)
  /\ debug_log b' = (debug_log raid_bot ++ ["Command rejected due to insufficient role"])%list.
Proof.
  apply (handleMessage_role_rejected raid_bot "#chan" alice "!raid bob" t0 raid_entry
           [broadcaster; moderator]).
  - reflexivity.
  - vm_compute. reflexivity.
  - reflexivity.
  - reflexivity.
Defined.

Lemma broadcaster_needs_to_be_listed_witness :
  let b' := handleMessage "#chan" streamer "!modonly" false t0 modonly_bot in
  getRole streamer = broadcaster /\ calls b' = calls modonly_bot /\ eff b' = eff modonly_bot.
Proof.
  apply (broadcaster_needs_to_be_listed modonly_bot "#chan" streamer "!modonly" t0
           modonly_entry [moderator]).
  - reflexivity.
  - vm_compute. reflexivity.
  - reflexivity.
  - reflexivity.
  - reflexivity.
Defined.

Lemma handleMessage_cooldown_window_witness :
  let b1 := handleMessage "#chan" alice "!ping" false t0 ping_bot in
  (let b2 := handleMessage "#chan" alice "!ping" false (t0 + 999) b1 in
   calls b2 = calls b1 /\ eff b2 = eff b1 /\ lastRun b2 !! "1:ping" = Some t0)
  /\ (let b2 := handleMessage "#chan" alice "!ping" false (t0 + 1000) b1 in
      calls b2 = (calls b1 ++ [{| call_channel := "#chan"; call_user := alice;
                                 call_args := EmptyString |}])%list
      /\ lastRun b2 !! "1:ping" = Some (t0 + 1000)).
Proof.
  split.
  - apply (handleMessage_cooldown_window ping_bot "#chan" alice "!ping" t0 (t0 + 999)
             ping_entry 1000).
    + reflexivity.
    + vm_compute. reflexivity.
    + exact I.
    + reflexivity.
    + vm_compute. discriminate.
  - apply (handleMessage_cooldown_window ping_bot "#chan" alice "!ping" t0 (t0 + 1000)
             ping_entry 1000).
    + reflexivity.
    + vm_compute. reflexivity.
    + exact I.
    + reflexivity.
    + vm_compute. discriminate.
Defined.

Lemma users_without_id_share_cooldown_witness :
  let b1 := handleMessage "#chan" guest1 "!ping" false t0 ping_bot in
  let b2 := handleMessage "#chan" guest2 "!ping" false (t0 + 1) b1 in
  throttle_key guest1 "!ping" = "undefined:ping"
  /\ calls b2 = calls b1 /\ eff b2 = eff b1.
Proof.
  apply (users_without_id_share_cooldown ping_bot "#chan" guest1 guest2 "!ping" t0 (t0 + 1)
           ping_entry 1000).
  - reflexivity.
  - vm_compute. reflexivity.
  - exact I.
  - exact I.
  - reflexivity.
  - reflexivity.
  - reflexivity.
  - vm_compute. discriminate.
  - vm_compute. reflexivity.
Defined.

Lemma handleMessage_without_cooldown_witness :
  let b' := handleMessage "#chan" alice "!hello" false 0 hello_bot in
  calls b' = (calls hello_bot ++ [{| call_channel := "#chan"; call_user := alice;
                                    call_args := EmptyString |}])%list
  /\ lastRun b' = lastRun hello_bot.
Proof.
  apply (handleMessage_without_cooldown hello_bot "#chan" alice "!hello" 0 hello_entry).
  - reflexivity.
  - vm_compute. reflexivity.
  - exact I.
  - right. reflexivity.
Defined.

Lemma handleMessage_first_use_witness :
  (let b' := handleMessage "#chan" alice "!ping" false 999 ping_bot in
   calls b' = calls ping_bot /\ lastRun b' = lastRun ping_bot)
  /\ (let b' := handleMessage "#chan" alice "!ping" false 1000 ping_bot in
      calls b' = (calls ping_bot ++ [{| call_channel := "#chan"; call_user := alice;
                                       call_args := EmptyString |}])%list
      /\ lastRun b' !! throttle_key alice "!ping" = Some 1000).
Proof.
  split.
  - apply (handleMessage_first_use ping_bot "#chan" alice "!ping" 999 ping_entry 1000).
    + reflexivity.
    + vm_compute. reflexivity.
    + exact I.
    + reflexivity.
    + vm_compute. reflexivity.
  - apply (handleMessage_first_use ping_bot "#chan" alice "!ping" 1000 ping_entry 1000).
    + reflexivity.
    + vm_compute. reflexivity.
    + exact I.
    + reflexivity.
    + vm_compute. reflexivity.
Defined.

Lemma cooldowns_of_users_are_apart_witness :
  last_of (handleMessage "#chan" alice "!ping" false t0 ping_bot) (throttle_key bob "!ping")
  = last_of ping_bot (throttle_key bob "!ping").
Proof.
  apply (cooldowns_of_users_are_apart ping_bot "#chan" alice bob "!ping" "!ping" false t0
           "1" "2").
  - reflexivity.
  - reflexivity.
  - discriminate.
  - reflexivity.
  - reflexivity.
Defined.

Lemma registerCommand_then_handle_witness :
  let b' := handleMessage "#chan" alice "!pInG now" false t0
              (registerCommand "PiNg" push_args {| cooldownMs := None; roles := None |}
                 ping_bot) in
  calls b' = (calls ping_bot ++ [{| call_channel := "#chan"; call_user := alice;
                                   call_args := "now" |}])%list
  /\ eff b' = ["now"]
  /\ lastRun b' = lastRun ping_bot.
Proof.
  apply (registerCommand_then_handle ping_bot "PiNg" push_args
           {| cooldownMs := None; roles := None |} "#chan" alice "!pInG now" t0).
  - reflexivity.
  - reflexivity.
  - reflexivity.
  - reflexivity.
Defined.


Lemma ensureSubscription_renews_within_lead_time_witness :
  requests (snd (ensure_online (world (Contents (stringify2 expiring_store)) (mock_api sub1))))
  = [online_request].
Proof.
  apply (ensureSubscription_renews_within_lead_time iso_getTime
           (world (Contents (stringify2 expiring_store)) (mock_api sub1))
           (wide "stream.online") online (wide "cb") (wide "secret")
           [(makeKey (wide "stream.online") online,
             record_of expiring (wide "stream.online") online)]).
  - vm_compute. reflexivity.
  - intros e t He Ht. vm_compute in He. injection He as <-.
    vm_compute in Ht. injection Ht as <-. vm_compute. discriminate.
Defined.

Lemma ensureSubscription_null_store_witness :
  loadState (world (Contents null_text) (mock_api sub1))
  = (Ok JNull, world (Contents null_text) (mock_api sub1))
  /\ ensure_online (world (Contents null_text) (mock_api sub1))
     = (Err TypeError, world (Contents null_text) (mock_api sub1)).
Proof.
  apply (ensureSubscription_null_store iso_getTime (world (Contents null_text) (mock_api sub1))
           (wide "stream.online") online (wide "cb") (wide "secret")).
  vm_compute. reflexivity.
Defined.

Lemma ensureSubscription_write_refused_witness :
  (let run := ensure_online (readonly_world Missing (mock_api sub1)) in
   fst run = Err IoError
   /\ requests (snd run) = [online_request]
   /\ file (snd run) = Missing
   /\ writes (snd run) = [] /\ timers (snd run) = [] /\ log (snd run) = [])
  /\ (let run := ensure_online (torn_world (Contents (stringify2 expiring_store)) []
                                  (mock_api sub2)) in
      fst run = Err IoError
      /\ requests (snd run) = [online_request]
      /\ file (snd run) = Contents []
      /\ writes (snd run) = [] /\ timers (snd run) = [] /\ log (snd run) = []).
Proof.
  split.
  - apply (ensureSubscription_write_refused iso_getTime (readonly_world Missing (mock_api sub1))
             (wide "stream.online") online (wide "cb") (wide "secret") [] sub1 []).
    + reflexivity.
    + reflexivity.
    + reflexivity.
    + vm_compute. discriminate.
  - apply (ensureSubscription_write_refused iso_getTime
             (torn_world (Contents (stringify2 expiring_store)) [] (mock_api sub2))
             (wide "stream.online") online (wide "cb") (wide "secret")
             [(makeKey (wide "stream.online") online,
               record_of expiring (wide "stream.online") online)] sub2 []).
    + reflexivity.
    + vm_compute. reflexivity.
    + reflexivity.
    + vm_compute. discriminate.
Defined.

Lemma makeKey_injective_witness :
  wide "stream.online" = wide "stream.online" /\ online = online.
Proof.
  apply (makeKey_injective (wide "stream.online") (wide "stream.online") online online);
    vm_compute; reflexivity.
Defined.

Lemma load_save_load_witness :
  fst (loadState (snd (saveState (stored (Contents online_text))
                         (world (Contents online_text) (mock_api sub1)))))
  = Ok (stored (Contents online_text)).
Proof.
  apply (load_save_load (world (Contents online_text) (mock_api sub1)));
    vm_compute; reflexivity.
Defined.

Lemma ensureSubscription_keeps_other_records_witness :
  Runs.store_get
    (file (snd (ensureSubscription iso_getTime (wide "channel.follow") follow
                  (wide "cb") (wide "secret")
                  (world (Contents online_text) (mock_api sub1)))))
    (makeKey (wide "stream.online") online)
  = Runs.store_get (Contents online_text) (makeKey (wide "stream.online") online).
Proof.
  apply (ensureSubscription_keeps_other_records iso_getTime
           (world (Contents online_text) (mock_api sub1))
           (wide "channel.follow") follow (wide "cb") (wide "secret")
           (makeKey (wide "stream.online") online)).
  - vm_compute. reflexivity.
  - vm_compute. reflexivity.
  - vm_compute. discriminate.
Defined.

Lemma ensureSubscription_repeated_witness :
  exists wn,
    Runs.ensure_times iso_getTime 3 (wide "stream.online") online (wide "cb") (wide "secret")
      (frozen_world (Contents online_text) (mock_api sub1)) = (Ok tt, wn)
    /\ requests wn = [] /\ writes wn = [] /\ file wn = Contents online_text
    /\ length (timers wn) = 3%nat.
Proof.
  apply (ensureSubscription_repeated iso_getTime (wide "stream.online") online
           (wide "cb") (wide "secret")
           [(makeKey (wide "stream.online") online, record_of sub1 (wide "stream.online") online)]
           [(wide "id", JStr (wide "sub1")); (wide "type", JStr (wide "stream.online"));
            (wide "condition", JObj (strings_obj online));
            (wide "expires_at", JStr (wide "2023-11-14T23:13:20.000Z"))]
           1700003600000 3 (frozen_world (Contents online_text) (mock_api sub1))).
  - vm_compute. reflexivity.
  - vm_compute. reflexivity.
  - vm_compute. reflexivity.
  - intros k. vm_compute. reflexivity.
Defined.

Lemma fromEnv_channels_witness :
  exists c, full_env !! "TWITCH_CHAT_CHANNELS" = Some c
    /\ length ["#one"; "#two"; EmptyString] = S (Config.count_unit "," c)
    /\ Forall (fun ch =>
         Config.count_unit "," ch = O
         /\ match Config.first_unit ch with
            | Some a => Parse.is_whitespace a = false
            | None => True
            end
         /\ match Config.last_unit ch with
            | Some a => Parse.is_whitespace a = false
            | None => True
            end) ["#one"; "#two"; EmptyString].
Proof.
  apply (fromEnv_channels full_env
           {| Config.arg_username := "bot"; Config.arg_token := "oauth:x";
              Config.arg_channels := ["#one"; "#two"; EmptyString] |}).
  vm_compute. reflexivity.
Defined.

Lemma request_fetches_token_once_witness :
  let c := client (fun _ => Twitch.TokenOk (Some "tok")) in
  let c1 := snd (Twitch.request streams c) in
  let c2 := snd (Twitch.request streams c1) in
  Twitch.token_posts c2 = [Twitch.credentials c]
  /\ Twitch.sent c2
     = [{| Twitch.default_headers := Twitch.signed_headers c (Some "tok");
           Twitch.sent_config := streams |};
        {| Twitch.default_headers := Twitch.signed_headers c (Some "tok");
           Twitch.sent_config := streams |}]
  /\ Twitch.accessToken c2 = Some "tok".
Proof.
  apply (request_fetches_token_once streams streams
           (client (fun _ => Twitch.TokenOk (Some "tok"))) "tok").
  - reflexivity.
  - reflexivity.
  - discriminate.
Defined.

Lemma request_without_token_witness :
  let c := client (fun _ => Twitch.TokenFail "401") in
  let c' := snd (Twitch.request streams c) in
  fst (Twitch.request streams c) = Err (RemoteError "401")
  /\ Twitch.sent c' = [] /\ Twitch.apiRequestCounter c' = []
  /\ Twitch.has_token c' = false /\ Twitch.headers c' = ∅
  /\ Twitch.token_posts c' = [Twitch.credentials c].
Proof.
  apply (request_without_token streams (client (fun _ => Twitch.TokenFail "401")) "401");
    reflexivity.
Defined.

Lemma request_with_unusable_token_witness :
  let c := client (fun _ => Twitch.TokenOk None) in
  let c1 := snd (Twitch.request streams c) in
  let c2 := snd (Twitch.request streams c1) in
  Twitch.headers c1 !! "Authorization" = Some "Bearer undefined"
  /\ Twitch.sent c1 = [{| Twitch.default_headers := Twitch.headers c1;
                          Twitch.sent_config := streams |}]
  /\ Twitch.has_token c1 = false
  /\ Twitch.token_posts c1 = [Twitch.credentials c]
  /\ Twitch.token_posts c2 = [Twitch.credentials c; Twitch.credentials c].
Proof.
  apply (request_with_unusable_token streams streams
           (client (fun _ => Twitch.TokenOk None)) None).
  - reflexivity.
  - reflexivity.
  - left. reflexivity.
Defined.

End MoreWitnesses.

